(** * JAXtronomy lens profiles: Gaussian and SIS

    A shallow embedding of
      - jaxtronomy/LensModel/Profiles/gaussian.py  (class Gaussian)
      - jaxtronomy/LensModel/Profiles/sis.py       (class SIS)
      - test/test_Sampling/test_Samplers/test_jaxopt_minimizer.py
        (the two log-likelihoods of the test class)

    Numbers.  The profiles compute on IEEE floating-point values.  The
    embedding keeps the special values of IEEE arithmetic (the two
    infinities and NaN, with their propagation rules) and idealises the
    finite values to real numbers: rounding, overflow and underflow of
    finite results are not part of the model, and zero carries no sign
    (a zero divisor is read as +0).  Where a function uses only [*] and
    [/] on Python floats (the SIS density conversions) a second, bit
    exact model over binary64 is given in [Module Binary64].  The
    Gaussian deflection and Hessian, whose only operation outside IEEE
    754 is [jnp.exp], have a binary64 model too, [Module
    GaussianBinary64], with the exponential left open: it decides what
    overflow and underflow do to them.

    Names.  Python resolves a global name at the moment the expression
    that mentions it is evaluated.  Module [Py] models that: a module
    namespace is the list of names its top-level statements bind, and
    loading a name that is neither there nor a builtin raises NameError. *)

From Stdlib Require Import Reals Lra Lia ZArith String List Bool.
From Stdlib Require Floats.
Import ListNotations.

Local Open Scope R_scope.

(** ** Floating-point values with IEEE special values *)

Inductive fval : Type :=
| Fin (x : R)
| PInf
| NInf
| NaN.

Declare Scope fval_scope.
Delimit Scope fval_scope with fl.
Bind Scope fval_scope with fval.

(** [by_sign s pos neg]: the infinity carrying the sign of [s];
    NaN when [s] is zero (the cases 0 * inf and 0 / 0). *)
Definition by_sign (s : R) (pos neg : fval) : fval :=
  match total_order_T s 0 with
  | inleft (left _) => neg
  | inleft (right _) => NaN
  | inright _ => pos
  end.

Definition fneg (a : fval) : fval :=
  match a with
  | Fin x => Fin (- x)
  | PInf => NInf
  | NInf => PInf
  | NaN => NaN
  end.

Definition fadd (a b : fval) : fval :=
  match a, b with
  | NaN, _ | _, NaN => NaN
  | Fin x, Fin y => Fin (x + y)
  | PInf, NInf | NInf, PInf => NaN
  | PInf, _ | _, PInf => PInf
  | NInf, _ | _, NInf => NInf
  end.

Definition fsub (a b : fval) : fval := fadd a (fneg b).

Definition fmul (a b : fval) : fval :=
  match a, b with
  | NaN, _ | _, NaN => NaN
  | Fin x, Fin y => Fin (x * y)
  | Fin x, PInf | PInf, Fin x => by_sign x PInf NInf
  | Fin x, NInf | NInf, Fin x => by_sign x NInf PInf
  | PInf, PInf | NInf, NInf => PInf
  | PInf, NInf | NInf, PInf => NInf
  end.

Definition fdiv (a b : fval) : fval :=
  match a, b with
  | NaN, _ | _, NaN => NaN
  | Fin x, Fin y =>
      if Req_dec_T y 0 then by_sign x PInf NInf else Fin (x / y)
  | Fin _, PInf | Fin _, NInf => Fin 0
  | PInf, Fin y => if Rlt_dec y 0 then NInf else PInf
  | NInf, Fin y => if Rlt_dec y 0 then PInf else NInf
  | PInf, PInf | PInf, NInf | NInf, PInf | NInf, NInf => NaN
  end.

(** [x ** 2] on floats is [lax.integer_pow x 2], the product [x * x]. *)
Definition fsquare (a : fval) : fval := fmul a a.

Definition fsqrt (a : fval) : fval :=
  match a with
  | Fin x => if Rlt_dec x 0 then NaN else Fin (sqrt x)
  | PInf => PInf
  | NInf | NaN => NaN
  end.

Definition fexp (a : fval) : fval :=
  match a with
  | Fin x => Fin (exp x)
  | PInf => PInf
  | NInf => Fin 0
  | NaN => NaN
  end.

(** Comparisons: every comparison with NaN is false. *)
Definition feqb (a b : fval) : bool :=
  match a, b with
  | Fin x, Fin y => if Req_dec_T x y then true else false
  | PInf, PInf | NInf, NInf => true
  | _, _ => false
  end.

Definition fltb (a b : fval) : bool :=
  match a, b with
  | Fin x, Fin y => if Rlt_dec x y then true else false
  | Fin _, PInf | NInf, Fin _ | NInf, PInf => true
  | _, _ => false
  end.

Definition fleb (a b : fval) : bool := fltb a b || feqb a b.

(** [jnp.where cond a b] on one element: both branches are evaluated,
    the condition selects. *)
Definition fwhere (cond : bool) (a b : fval) : fval :=
  if cond then a else b.

Definition is_finite (a : fval) : Prop := exists x, a = Fin x.

Notation "a + b" := (fadd a b) : fval_scope.
Notation "a - b" := (fsub a b) : fval_scope.
Notation "a * b" := (fmul a b) : fval_scope.
Notation "a / b" := (fdiv a b) : fval_scope.
Notation "- a" := (fneg a) : fval_scope.

(** A numeric literal or an integer loop index used as a float. *)
Definition lit (z : Z) : fval := Fin (IZR z).

(** [jnp.pi] *)
Definition pi : fval := Fin PI.

(** ** [lax.fori_loop lower upper body init] *)

Fixpoint fori_steps {A : Type} (n : nat) (i : Z) (body : Z -> A -> A) (val : A) : A :=
  match n with
  | O => val
  | S n' => fori_steps n' (i + 1)%Z body (body i val)
  end.

Definition fori_loop {A : Type} (lower upper : Z) (body : Z -> A -> A) (init : A) : A :=
  fori_steps (Z.to_nat (upper - lower)) lower body init.

(** ** gaussian.py

    Every global name the class body mentions ([jnp], [lax], [jit],
    [jax], [GAUSSIAN_INSTANCE]) is bound by the module's imports and
    assignments, so name resolution cannot fail here and the methods
    are modelled as total functions on [fval]. *)

Module Gaussian.

(** [self.ds = 0.00001] *)
Definition ds : fval := Fin (1 / 100000).

(** The body of the loop in [_num_integral], on one element of [r]. *)
Definition trapezoidal_sum (r c : fval) (i : Z) (val : fval) : fval :=
  let sum := val in
  let dx := (r / lit 200)%fl in
  let x_left := (dx * lit i)%fl in
  let x_right := (dx * lit (i + 1))%fl in
  let y_left :=
    fwhere (feqb x_left (lit 0)) (lit 0)
           ((lit 1 - fexp (- c * fsquare x_left)) / x_left)%fl in
  let y_right := ((lit 1 - fexp (- c * fsquare x_right)) / x_right)%fl in
  (sum + (y_left + y_right) / lit 2 * dx)%fl.

Definition _num_integral (r c : fval) : fval :=
  fori_loop 0 200 (trapezoidal_sum r c) (lit 0).

Definition _amp3d_to_2d (amp sigma_x sigma_y : fval) : fval :=
  (amp * fsqrt pi * fsqrt (sigma_x * sigma_y * lit 2))%fl.

Definition _amp2d_to_3d (amp sigma_x sigma_y : fval) : fval :=
  (amp / (fsqrt pi * fsqrt (sigma_x * sigma_y * lit 2)))%fl.

Definition function (x y amp sigma center_x center_y : fval) : fval :=
  let x_ := (x - center_x)%fl in
  let y_ := (y - center_y)%fl in
  let r := fsqrt (fsquare x_ + fsquare y_)%fl in
  let sigma_x := sigma in
  let sigma_y := sigma in
  let c := (lit 1 / (lit 2 * sigma_x * sigma_y))%fl in
  let num_int := _num_integral r c in
  let amp_density := _amp2d_to_3d amp sigma_x sigma_y in
  let amp2d := (amp_density / (fsqrt pi * fsqrt (sigma_x * sigma_y * lit 2)))%fl in
  let amp2d := (amp2d * (lit 2 * lit 1 / (lit 2 * c)))%fl in
  (num_int * amp2d)%fl.

Definition mass_2d (R amp sigma : fval) : fval :=
  let sigma_x := sigma in
  let sigma_y := sigma in
  let amp2d := (amp / (fsqrt pi * fsqrt (sigma_x * sigma_y * lit 2)))%fl in
  let c := (lit 1 / (lit 2 * sigma_x * sigma_y))%fl in
  (amp2d * lit 2 * pi * lit 1 / (lit 2 * c) * (lit 1 - fexp (- c * fsquare R)))%fl.

Definition mass_2d_lens (R amp sigma : fval) : fval :=
  let sigma_x := sigma in
  let sigma_y := sigma in
  let amp_density := _amp2d_to_3d amp sigma_x sigma_y in
  mass_2d R amp_density sigma.

Definition alpha_abs (R amp sigma : fval) : fval :=
  let sigma_x := sigma in
  let sigma_y := sigma in
  let amp_density := _amp2d_to_3d amp sigma_x sigma_y in
  let alpha := (mass_2d R amp_density sigma / pi / R)%fl in
  alpha.

Definition d_alpha_dr (R amp sigma_x sigma_y : fval) : fval :=
  let c := (lit 1 / (lit 2 * sigma_x * sigma_y))%fl in
  let A := (_amp2d_to_3d amp sigma_x sigma_y
            * fsqrt (lit 2 / pi * sigma_x * sigma_y))%fl in
  (lit 1 / fsquare R
   * (lit (-1) + (lit 1 + lit 2 * c * fsquare R) * fexp (- c * fsquare R))
   * A)%fl.

Definition derivatives (x y amp sigma center_x center_y : fval) : fval * fval :=
  let x_ := (x - center_x)%fl in
  let y_ := (y - center_y)%fl in
  let R := fsqrt (fsquare x_ + fsquare y_)%fl in
  let R := fwhere (fleb R ds) ds R in
  let alpha := alpha_abs R amp sigma in
  ((alpha / R * x_)%fl, (alpha / R * y_)%fl).

Definition hessian (x y amp sigma center_x center_y : fval)
  : fval * fval * fval * fval :=
  let x_ := (x - center_x)%fl in
  let y_ := (y - center_y)%fl in
  let r := fsqrt (fsquare x_ + fsquare y_)%fl in
  let sigma_x := sigma in
  let sigma_y := sigma in
  let r := fwhere (fltb r ds) ds r in
  let d_alpha_dr_ := (- d_alpha_dr r amp sigma_x sigma_y)%fl in
  let alpha := alpha_abs r amp sigma in
  let f_xx := (- (d_alpha_dr_ / r + alpha / fsquare r) * fsquare x_ / r + alpha / r)%fl in
  let f_yy := (- (d_alpha_dr_ / r + alpha / fsquare r) * fsquare y_ / r + alpha / r)%fl in
  let f_xy := (- (d_alpha_dr_ / r + alpha / fsquare r) * x_ * y_ / r)%fl in
  (f_xx, f_xy, f_xy, f_yy).

End Gaussian.

(** ** Arrays: shape, dtype and the flat list of elements *)

Inductive dtype : Type := int32 | int64 | float32 | float64.

Record ndarray : Type := mk_ndarray {
  shape : list nat;
  dtype_of : dtype;
  data : list fval
}.

(** Python's [float] as a dtype.  gaussian.py sets [jax_enable_x64], so
    it is float64. *)
Definition py_float : dtype := float64.

(** jax's promotion on these four dtypes is the maximum in the order
    int32 < int64 < float32 < float64. *)
Definition dtype_rank (d : dtype) : nat :=
  match d with int32 => 0 | int64 => 1 | float32 => 2 | float64 => 3 end.

Definition promote (d1 d2 : dtype) : dtype :=
  if (dtype_rank d1 <=? dtype_rank d2)%nat then d2 else d1.

(** dtype of [a / 200.0]: an integer array becomes the default float,
    a float array keeps its dtype (the Python scalar is weakly typed). *)
Definition true_divide_dtype (d : dtype) : dtype :=
  match d with int32 | int64 => py_float | _ => d end.

(** [jnp.zeros_like(a, dtype=dt)] *)
Definition zeros_like (a : ndarray) (dt : dtype) : ndarray :=
  {| shape := shape a; dtype_of := dt; data := map (fun _ => lit 0) (data a) |}.

Fixpoint map2 {A B C : Type} (f : A -> B -> C) (l1 : list A) (l2 : list B) : list C :=
  match l1, l2 with
  | a :: l1', b :: l2' => f a b :: map2 f l1' l2'
  | _, _ => []
  end.

Module GaussianArray.

(** The loop body on arrays.  Every operation of [trapezoidal_sum] is
    elementwise on [r] and on the carry [val], which have one shape, so
    the step acts on each pair of entries as [Gaussian.trapezoidal_sum]
    does; the carry keeps its shape and is promoted with the dtype of
    [dx]. *)
Definition trapezoidal_sum (r : ndarray) (c : fval) (i : Z) (val : ndarray) : ndarray :=
  {| shape := shape val;
     dtype_of := promote (dtype_of val) (true_divide_dtype (dtype_of r));
     data := map2 (fun ri vi => Gaussian.trapezoidal_sum ri c i vi) (data r) (data val) |}.

(** [sum = jnp.zeros_like(r, dtype=float)] *)
Definition accumulator (r : ndarray) : ndarray := zeros_like r py_float.

Definition _num_integral (r : ndarray) (c : fval) : ndarray :=
  fori_loop 0 200 (trapezoidal_sum r c) (accumulator r).

End GaussianArray.

(** ** Python name resolution and exceptions *)

Module Py.

Inductive exn : Type :=
| NameError (name : string)
| AttributeError (attr : string)
| TypeError.

Inductive result (A : Type) : Type :=
| Ok (a : A)
| Raise (e : exn).
Arguments Ok {A} a.
Arguments Raise {A} e.

Definition bind {A B : Type} (m : result A) (k : A -> result B) : result B :=
  match m with
  | Ok a => k a
  | Raise e => Raise e
  end.

(** The objects a global name of these modules can be bound to. *)
Inductive pyobj : Type :=
| jax_numpy        (* the module jax.numpy *)
| jax_grad         (* jax.grad *)
| jax_jacfwd       (* jax.jacfwd *)
| jax_jacrev       (* jax.jacrev *)
| builtin          (* some builtin *)
| other.           (* a class, a string, a list *)

Definition namespace : Type := list (string * pyobj).

Fixpoint lookup (name : string) (ns : namespace) : option pyobj :=
  match ns with
  | [] => None
  | (k, v) :: ns' => if String.eqb k name then Some v else lookup name ns'
  end.

(** The functions and constants of Python's [builtins] module (its
    exception classes are not listed). *)
Definition builtins : list string :=
  ["abs"; "aiter"; "all"; "anext"; "any"; "ascii"; "bin"; "bool";
   "breakpoint"; "bytearray"; "bytes"; "callable"; "chr"; "classmethod";
   "compile"; "complex"; "delattr"; "dict"; "dir"; "divmod"; "enumerate";
   "eval"; "exec"; "filter"; "float"; "format"; "frozenset"; "getattr";
   "globals"; "hasattr"; "hash"; "help"; "hex"; "id"; "input"; "int";
   "isinstance"; "issubclass"; "iter"; "len"; "list"; "locals"; "map";
   "max"; "memoryview"; "min"; "next"; "object"; "oct"; "open"; "ord";
   "pow"; "print"; "property"; "range"; "repr"; "reversed"; "round";
   "set"; "setattr"; "slice"; "sorted"; "staticmethod"; "str"; "sum";
   "super"; "tuple"; "type"; "vars"; "zip"; "__import__";
   "True"; "False"; "None"; "Ellipsis"; "NotImplemented"; "__debug__"]%string.

(** LOAD_GLOBAL: the module namespace first, then the builtins. *)
Definition load_global (globals : namespace) (name : string) : result pyobj :=
  match lookup name globals with
  | Some o => Ok o
  | None =>
      if existsb (String.eqb name) builtins then Ok builtin
      else Raise (NameError name)
  end.

(** Attribute access on the module object, for the attributes used. *)
Definition attr_sqrt (o : pyobj) : result (fval -> fval) :=
  match o with
  | jax_numpy => Ok fsqrt
  | _ => Raise (AttributeError "sqrt")
  end.

Definition attr_pi (o : pyobj) : result fval :=
  match o with
  | jax_numpy => Ok pi
  | _ => Raise (AttributeError "pi")
  end.

End Py.

Notation "x <- m ;; k" := (Py.bind m (fun x => k))
  (at level 61, m at next level, right associativity).

(** ** sis.py *)

Module SIS.
Import Py.

(** The names bound at module level, in the order the statements run:
    [__author__], [from jax import grad, numpy as np],
    [from lenstronomy... import LensProfileBase], [__all__], [class SIS]. *)
Definition globals : namespace :=
  [("__author__", other); ("grad", jax_grad); ("np", jax_numpy);
   ("LensProfileBase", other); ("__all__", other); ("SIS", other)]%string.

Definition function (x y theta_E center_x center_y : fval) : result fval :=
  let x_shift := (x - center_x)%fl in
  let y_shift := (y - center_y)%fl in
  jnp <- load_global globals "jnp" ;;
  sqrt_ <- attr_sqrt jnp ;;
  let f_ := (theta_E * sqrt_ (x_shift * x_shift + y_shift * y_shift))%fl in
  Ok f_.

Definition rho2theta (rho0 : fval) : result fval :=
  np <- load_global globals "np" ;;
  pi_ <- attr_pi np ;;
  let theta_E := (pi_ * lit 2 * rho0)%fl in
  Ok theta_E.

Definition theta2rho (theta_E : fval) : result fval :=
  np <- load_global globals "np" ;;
  pi_ <- attr_pi np ;;
  let fac1 := (pi_ * lit 2)%fl in
  let rho0 := (theta_E / fac1)%fl in
  Ok rho0.

Definition mass_3d (r rho0 : fval) : result fval :=
  np <- load_global globals "np" ;;
  pi_ <- attr_pi np ;;
  let mass_3d := (lit 4 * pi_ * rho0 * r)%fl in
  Ok mass_3d.

Definition mass_3d_lens (r theta_E : fval) : result fval :=
  rho0 <- theta2rho theta_E ;;
  mass_3d r rho0.

Definition mass_2d (r rho0 : fval) : result fval :=
  np <- load_global globals "np" ;;
  pi_ <- attr_pi np ;;
  let alpha := (lit 2 * rho0 * fsquare pi_)%fl in
  let mass_2d := (alpha * r)%fl in
  Ok mass_2d.

Definition mass_2d_lens (r theta_E : fval) : result fval :=
  rho0 <- theta2rho theta_E ;;
  mass_2d r rho0.

(** [r] is the result of [np.sqrt], a jax array, so the quotient
    [mass_3d / r] is an IEEE division. *)
Definition grav_pot (x y rho0 center_x center_y : fval) : result fval :=
  let x_ := (x - center_x)%fl in
  let y_ := (y - center_y)%fl in
  np <- load_global globals "np" ;;
  sqrt_ <- attr_sqrt np ;;
  let r := sqrt_ (fsquare x_ + fsquare y_)%fl in
  mass_3d_ <- mass_3d r rho0 ;;
  let pot := (mass_3d_ / r)%fl in
  Ok pot.

(** On arrays; on plain Python floats a zero [r] raises ZeroDivisionError
    instead, which the statements about [density] stay away from. *)
Definition density (r rho0 : fval) : result fval :=
  let rho := (rho0 / fsquare r)%fl in
  Ok rho.

Definition density_lens (r theta_E : fval) : result fval :=
  rho0 <- theta2rho theta_E ;;
  density r rho0.

Definition density_2d (x y rho0 center_x center_y : fval) : result fval :=
  let x_ := (x - center_x)%fl in
  let y_ := (y - center_y)%fl in
  np <- load_global globals "np" ;;
  sqrt_ <- attr_sqrt np ;;
  let r := sqrt_ (fsquare x_ + fsquare y_)%fl in
  np' <- load_global globals "np" ;;
  pi_ <- attr_pi np' ;;
  let sigma := (pi_ * rho0 / r)%fl in
  Ok sigma.

Section Autodiff.

(** jax's transformations are external.  What they compute from a
    function whose trace succeeded is left open: [ad_gradient f x y] is
    the pair of partial derivatives of [f] in its first two arguments,
    [ad_jacobian f x y] the two rows of second derivatives. *)
Variable ad_gradient : (fval -> fval -> result fval) -> fval -> fval -> fval * fval.
Variable ad_jacobian :
  (fval -> fval -> result fval) -> fval -> fval -> (fval * fval) * (fval * fval).

(** Calling a transformed function traces it: the Python body runs once
    on the arguments, and an exception it raises propagates. *)
Definition traced {A : Type} (f : fval -> fval -> result fval) (x y : fval)
    (out : A) : result A :=
  _ <- f x y ;; Ok out.

Definition derivatives (x y theta_E center_x center_y : fval) : result (fval * fval) :=
  let self_function := fun a b => function a b theta_E center_x center_y in
  grad <- load_global globals "grad" ;;
  match grad with
  | jax_grad =>
      out <- traced self_function x y (ad_gradient self_function x y) ;;
      let '(f_x, f_y) := out in
      Ok (f_x, f_y)
  | _ => Raise TypeError
  end.

Definition hessian (x y theta_E center_x center_y : fval)
  : result (fval * fval * fval * fval) :=
  let self_function := fun a b => function a b theta_E center_x center_y in
  jacfwd <- load_global globals "jacfwd" ;;
  jacrev <- load_global globals "jacrev" ;;
  match jacfwd, jacrev with
  | jax_jacfwd, jax_jacrev =>
      out <- traced self_function x y (ad_jacobian self_function x y) ;;
      let '(f_x, f_y) := out in
      let f_xx := fst f_x in
      let f_xy := snd f_x in
      let f_yx := fst f_y in
      let f_yy := snd f_y in
      Ok (f_xx, f_xy, f_xy, f_yy)
  | _, _ => Raise TypeError
  end.

End Autodiff.

End SIS.

(** ** The SIS conversions on binary64

    On Python floats [rho2theta] and [theta2rho] are one multiplication
    and one division in IEEE binary64, round to nearest even; [np.pi] is
    the double nearest to pi. *)

Module Binary64.
Import Floats.

Definition pi : float := 0x1.921fb54442d18p+1%float.

Definition rho2theta (rho0 : float) : float :=
  let theta_E := (pi * 2 * rho0)%float in
  theta_E.

Definition theta2rho (theta_E : float) : float :=
  let fac1 := (pi * 2)%float in
  let rho0 := (theta_E / fac1)%float in
  rho0.

(** The float [13.0]. *)
Definition thirteen : float := 13%float.

(** Python's [==] on floats. *)
Definition eq (a b : float) : bool := PrimFloat.eqb a b.

End Binary64.

(** ** gaussian.py on binary64

    The deflection, the Hessian and what they call, operation for
    operation on IEEE binary64 (the module enables x64; every operation
    but [jnp.exp] is a correctly rounded basic operation).  [exp] stands
    for [jnp.exp]: the statements below hold whatever it computes. *)

Module GaussianBinary64.
Import Floats.
Local Open Scope float_scope.

(** [jnp.pi], the double nearest to pi. *)
Definition pi : float := 0x1.921fb54442d18p+1.

(** [self.ds = 0.00001], the double nearest to 1e-5. *)
Definition ds : float := 0x1.4f8b588e368f1p-17.

Definition two_pow_600 : float := 0x1p+600.
Definition two_pow_minus_600 : float := 0x1p-600.

Section WithExp.

Variable exp : float -> float.

Definition _amp2d_to_3d (amp sigma_x sigma_y : float) : float :=
  amp / (sqrt pi * sqrt (sigma_x * sigma_y * 2)).

Definition mass_2d (R amp sigma : float) : float :=
  let sigma_x := sigma in
  let sigma_y := sigma in
  let amp2d := amp / (sqrt pi * sqrt (sigma_x * sigma_y * 2)) in
  let c := 1 / (2 * sigma_x * sigma_y) in
  amp2d * 2 * pi * 1 / (2 * c) * (1 - exp (- c * (R * R))).

Definition alpha_abs (R amp sigma : float) : float :=
  let sigma_x := sigma in
  let sigma_y := sigma in
  let amp_density := _amp2d_to_3d amp sigma_x sigma_y in
  let alpha := mass_2d R amp_density sigma / pi / R in
  alpha.

Definition d_alpha_dr (R amp sigma_x sigma_y : float) : float :=
  let c := 1 / (2 * sigma_x * sigma_y) in
  let A := _amp2d_to_3d amp sigma_x sigma_y * sqrt (2 / pi * sigma_x * sigma_y) in
  1 / (R * R) * (-1 + (1 + 2 * c * (R * R)) * exp (- c * (R * R))) * A.

Definition derivatives (x y amp sigma center_x center_y : float) : float * float :=
  let x_ := x - center_x in
  let y_ := y - center_y in
  let R := sqrt (x_ * x_ + y_ * y_) in
  let R := if R <=? ds then ds else R in
  let alpha := alpha_abs R amp sigma in
  (alpha / R * x_, alpha / R * y_).

Definition hessian (x y amp sigma center_x center_y : float)
  : float * float * float * float :=
  let x_ := x - center_x in
  let y_ := y - center_y in
  let r := sqrt (x_ * x_ + y_ * y_) in
  let sigma_x := sigma in
  let sigma_y := sigma in
  let r := if r <? ds then ds else r in
  let d_alpha_dr_ := - d_alpha_dr r amp sigma_x sigma_y in
  let alpha := alpha_abs r amp sigma in
  let f_xx := - (d_alpha_dr_ / r + alpha / (r * r)) * (x_ * x_) / r + alpha / r in
  let f_yy := - (d_alpha_dr_ / r + alpha / (r * r)) * (y_ * y_) / r + alpha / r in
  let f_xy := - (d_alpha_dr_ / r + alpha / (r * r)) * x_ * y_ / r in
  (f_xx, f_xy, f_xy, f_yy).

(** The factor [-(d_alpha_dr / r + alpha / r**2)] that the three entries
    of [hessian] share, at radius [r]. *)
Definition hessian_radial_factor (r amp sigma : float) : float :=
  - (- d_alpha_dr r amp sigma sigma / r + alpha_abs r amp sigma / (r * r)).

End WithExp.

(** The exponential used where a concrete one is needed: [1 + x], which
    is the correctly rounded [exp x] for the tiny arguments met at the
    floor ([|x|] below 1e-8). *)
Definition exp_near_zero (x : float) : float := 1 + x.

Definition all_finite (l : list float) : bool := forallb is_finite l.

Definition all_nan (l : list float) : bool := forallb is_nan l.

(** A float is NaN, or a zero of either sign, in the specification
    [Prim2SF] of the primitive floats. *)
Definition nanP (x : float) : Prop := Prim2SF x = S754_nan.

Definition zeroP (x : float) : Prop := exists s, Prim2SF x = S754_zero s.

End GaussianBinary64.

(** ** The quadrature as the specification words it

    The composite trapezoidal sum with [N = 200] subintervals of
    [f x = (1 - exp (- c x^2)) / x], with the value at [x = 0] replaced
    by the limit 0: a left-to-right fold from 0 of the terms
    [(f (i r / N) + f ((i+1) r / N)) / 2 * (r / N)], [i = 0 .. N-1]. *)

Definition integrand (c x : R) : R :=
  if Req_dec_T x 0 then 0 else (1 - exp (- (c * x ^ 2))) / x.

Definition trapezoid_term (r c : R) (i : nat) : R :=
  (integrand c (INR i * r / 200) + integrand c (INR (i + 1) * r / 200)) / 2 * (r / 200).

Definition trapezoid_spec (r c : R) : R :=
  fold_left (fun acc i => acc + trapezoid_term r c i) (seq 0 200) 0.

(** ** test_jaxopt_minimizer.py: the two log-likelihoods

    [x] is a numpy array of floats, here the list of its entries;
    [np.sum] adds them up from 0.  [0.6] is the real 3/5.  The fourth
    power is two squarings (the same value on every finite float and on
    the special values). *)

Module TestJaxoptMinimizer.

Definition np_sum (l : list fval) : fval := fold_left fadd l (lit 0).

Definition _logL (x : list fval) : fval :=
  (- np_sum (map (fun xi => fsquare (xi - Fin (3 / 5))) x))%fl.

Definition _logL2 (x : list fval) : fval :=
  (- np_sum (map (fun xi => fsquare (fsquare (lit 4 * xi - lit 1))) x))%fl.

End TestJaxoptMinimizer.

(** The real number a finite float stands for (0 for the special values),
    and the same for the outcome of a call. *)
Definition real_of (a : fval) : R :=
  match a with
  | Fin x => x
  | _ => 0
  end.

Definition real_of_result (m : Py.result fval) : R :=
  match m with
  | Py.Ok a => real_of a
  | Py.Raise _ => 0
  end.

(** The factor [alpha_abs r / r] of the Gaussian deflection, as a
    function of the squared radius [s = r^2]. *)
Definition deflection_factor (amp sigma s : R) : R :=
  amp * (1 - exp (- (s / (2 * sigma * sigma)))) / PI / s.

(** ** Basic facts about the float operations *)

Lemma fadd_NaN_r (a : fval) : (a + NaN)%fl = NaN.
Proof. destruct a; reflexivity. Qed.

Lemma fmul_NaN_r (a : fval) : (a * NaN)%fl = NaN.
Proof. destruct a; reflexivity. Qed.

Lemma fdiv_Fin (x y : R) : y <> 0 -> (Fin x / Fin y)%fl = Fin (x / y).
Proof.
  intros Hy. unfold fdiv. destruct (Req_dec_T y 0) as [E | _]; [contradiction | reflexivity].
Qed.

Lemma by_sign_zero (s : R) (p n : fval) : s = 0 -> by_sign s p n = NaN.
Proof.
  intros ->. unfold by_sign.
  destruct (total_order_T 0 0) as [[H | H] | H]; try reflexivity; lra.
Qed.

Lemma by_sign_pos (s : R) (p n : fval) : 0 < s -> by_sign s p n = p.
Proof.
  intros Hs. unfold by_sign.
  destruct (total_order_T s 0) as [[H | H] | H]; try reflexivity; lra.
Qed.

Lemma fdiv_zero_zero (x y : R) : x = 0 -> y = 0 -> (Fin x / Fin y)%fl = NaN.
Proof.
  intros Hx Hy. unfold fdiv.
  destruct (Req_dec_T y 0) as [_ | N]; [now apply by_sign_zero | contradiction].
Qed.

Lemma fori_steps_const {A : Type} (body : Z -> A -> A) (k : A) :
  (forall i v, body i v = k) ->
  forall n i v, fori_steps (S n) i body v = k.
Proof.
  intros Hb n. induction n as [| n IH]; intros i v.
  - simpl. apply Hb.
  - change (fori_steps (S n) (i + 1)%Z body (body i v) = k). apply IH.
Qed.

(** At radius 0 every step of the loop yields NaN: [x_right] is 0 and
    [y_right] is the unguarded quotient 0 / 0. *)
Lemma trapezoidal_sum_zero_radius (c : R) (i : Z) (val : fval) :
  Gaussian.trapezoidal_sum (Fin 0) (Fin c) i val = NaN.
Proof.
  unfold Gaussian.trapezoidal_sum, lit.
  rewrite fdiv_Fin by lra.
  cbn [fmul fsquare fneg fexp fsub fadd].
  rewrite (fdiv_zero_zero (1 + - exp (- c * (0 / 200 * IZR (i + 1) * (0 / 200 * IZR (i + 1)))))
                          (0 / 200 * IZR (i + 1))).
  - rewrite fadd_NaN_r. cbn [fdiv fmul]. apply fadd_NaN_r.
  - replace (- c * (0 / 200 * IZR (i + 1) * (0 / 200 * IZR (i + 1)))) with 0 by (field; lra).
    rewrite exp_0. lra.
  - lra.
Qed.

Lemma num_integral_zero_radius (c : R) :
  Gaussian._num_integral (Fin 0) (Fin c) = NaN.
Proof.
  unfold Gaussian._num_integral, fori_loop.
  change (Z.to_nat (200 - 0)) with (S 199).
  apply fori_steps_const. intros i v. apply trapezoidal_sum_zero_radius.
Qed.

Lemma fltb_Fin_true (x y : R) : x < y -> fltb (Fin x) (Fin y) = true.
Proof.
  intros H. unfold fltb. destruct (Rlt_dec x y) as [_ | N]; [reflexivity | contradiction].
Qed.

Lemma fltb_Fin_false (x y : R) : y <= x -> fltb (Fin x) (Fin y) = false.
Proof.
  intros H. unfold fltb. destruct (Rlt_dec x y) as [L | _]; [lra | reflexivity].
Qed.

Lemma feqb_Fin_false (x y : R) : x <> y -> feqb (Fin x) (Fin y) = false.
Proof.
  intros H. unfold feqb. destruct (Req_dec_T x y) as [E | _]; [contradiction | reflexivity].
Qed.

Lemma feqb_Fin_refl (x : R) : feqb (Fin x) (Fin x) = true.
Proof.
  unfold feqb. destruct (Req_dec_T x x) as [_ | N]; [reflexivity | contradiction].
Qed.

(** ** The quadrature at radius 0 *)

(** C1 (the claim: for every c > 0 the quadrature at r = 0 is exactly 0).
    The code does not return 0 there: for every finite [c],
    [_num_integral 0 c] is NaN, because [y_right] is computed as the
    unguarded quotient 0 / 0 at every step. *)
Theorem num_integral_at_zero_is_nan (c : R) :
  Gaussian._num_integral (Fin 0) (Fin c) = NaN.
Proof. apply num_integral_zero_radius. Qed.

(** ** sis.py: name resolution *)

Lemma load_np : Py.load_global SIS.globals "np" = Py.Ok Py.jax_numpy.
Proof. reflexivity. Qed.

Lemma load_grad : Py.load_global SIS.globals "grad" = Py.Ok Py.jax_grad.
Proof. reflexivity. Qed.

Lemma load_jnp : Py.load_global SIS.globals "jnp" = Py.Raise (Py.NameError "jnp").
Proof. reflexivity. Qed.

Lemma load_jacfwd : Py.load_global SIS.globals "jacfwd" = Py.Raise (Py.NameError "jacfwd").
Proof. reflexivity. Qed.

Lemma SIS_function_raises (x y theta_E center_x center_y : fval) :
  SIS.function x y theta_E center_x center_y = Py.Raise (Py.NameError "jnp").
Proof. unfold SIS.function. rewrite load_jnp. reflexivity. Qed.

Lemma SIS_hessian_raises ad (x y theta_E center_x center_y : fval) :
  SIS.hessian ad x y theta_E center_x center_y = Py.Raise (Py.NameError "jacfwd").
Proof. unfold SIS.hessian. rewrite load_jacfwd. reflexivity. Qed.

Lemma SIS_derivatives_raises ad (x y theta_E center_x center_y : fval) :
  SIS.derivatives ad x y theta_E center_x center_y = Py.Raise (Py.NameError "jnp").
Proof.
  unfold SIS.derivatives. rewrite load_grad. cbn [Py.bind].
  unfold SIS.traced. rewrite SIS_function_raises. reflexivity.
Qed.

(** C3: every call of [SIS.function] raises NameError for [jnp];
    [SIS.derivatives], which traces [SIS.function], fails with the same
    error, and [SIS.hessian] fails on the unbound name [jacfwd]: whatever
    the arguments and whatever the autodiff engine would compute, none of
    the three returns a value. *)
Theorem SIS_calls_raise ad_gradient ad_jacobian (x y theta_E center_x center_y : fval) :
  SIS.function x y theta_E center_x center_y = Py.Raise (Py.NameError "jnp")
  /\ SIS.derivatives ad_gradient x y theta_E center_x center_y
     = Py.Raise (Py.NameError "jnp")
  /\ SIS.hessian ad_jacobian x y theta_E center_x center_y
     = Py.Raise (Py.NameError "jacfwd").
Proof.
  split; [| split].
  - apply SIS_function_raises.
  - apply SIS_derivatives_raises.
  - apply SIS_hessian_raises.
Qed.

(** ** Mixed partials *)

(** [Gaussian.hessian] returns one value in both mixed positions. *)
Lemma Gaussian_hessian_mixed_partials (x y amp sigma center_x center_y : fval) :
  match Gaussian.hessian x y amp sigma center_x center_y with
  | (_, f_xy, f_yx, _) => f_xy = f_yx
  end.
Proof. unfold Gaussian.hessian. reflexivity. Qed.

(** C5 (the claim: the hessian of each model returns a 4-tuple with equal
    mixed partials).  [SIS.hessian] returns no tuple: at x = 1, y = 0,
    theta_E = 1 and the default center it raises NameError for [jacfwd],
    whatever the autodiff engine. *)
Theorem SIS_hessian_returns_no_tuple ad_jacobian :
  SIS.hessian ad_jacobian (lit 1) (lit 0) (lit 1) (lit 0) (lit 0)
  = Py.Raise (Py.NameError "jacfwd").
Proof. apply SIS_hessian_raises. Qed.

(** ** The SIS density conversions *)

Lemma PI2_neq0 : PI * 2 <> 0.
Proof. pose proof PI_RGT_0. lra. Qed.

Lemma SIS_theta2rho_Fin (t : R) : SIS.theta2rho (Fin t) = Py.Ok (Fin (t / (PI * 2))).
Proof.
  unfold SIS.theta2rho. rewrite load_np. cbn [Py.bind Py.attr_pi]. unfold pi, lit.
  cbn [fmul]. rewrite fdiv_Fin by apply PI2_neq0. reflexivity.
Qed.

Lemma SIS_rho2theta_Fin (r : R) : SIS.rho2theta (Fin r) = Py.Ok (Fin (PI * 2 * r)).
Proof. unfold SIS.rho2theta. rewrite load_np. reflexivity. Qed.

(** C10, as amended: in exact real arithmetic the two conversions are
    inverse to each other, in both orders. *)
Theorem SIS_conversions_round_trip_real (t : R) :
  (rho0 <- SIS.theta2rho (Fin t) ;; SIS.rho2theta rho0) = Py.Ok (Fin t)
  /\ (theta_E <- SIS.rho2theta (Fin t) ;; SIS.theta2rho theta_E) = Py.Ok (Fin t).
Proof.
  pose proof PI2_neq0 as Hpi. split.
  - rewrite SIS_theta2rho_Fin. cbn [Py.bind]. rewrite SIS_rho2theta_Fin.
    do 2 f_equal. field. pose proof PI_RGT_0. lra.
  - rewrite SIS_rho2theta_Fin. cbn [Py.bind]. rewrite SIS_theta2rho_Fin.
    do 2 f_equal. field. pose proof PI_RGT_0. lra.
Qed.

(** C10, the claim as stated (the round trips are exact) fails on the
    floats the code computes with: at 13.0 neither round trip gives 13.0
    back in binary64. *)
Lemma SIS_conversions_round_trip_binary64_inexact :
  Binary64.eq (Binary64.rho2theta (Binary64.theta2rho Binary64.thirteen))
              Binary64.thirteen = false
  /\ Binary64.eq (Binary64.theta2rho (Binary64.rho2theta Binary64.thirteen))
                 Binary64.thirteen = false.
Proof. split; vm_compute; reflexivity. Qed.

(** ** The quadrature at a positive radius *)

Lemma integrand_zero (c : R) : integrand c 0 = 0.
Proof.
  unfold integrand. destruct (Req_dec_T 0 0) as [_ | N]; [reflexivity | contradiction].
Qed.

Lemma integrand_nonzero (c x : R) :
  x <> 0 -> integrand c x = (1 - exp (- (c * x ^ 2))) / x.
Proof.
  intros Hx. unfold integrand.
  destruct (Req_dec_T x 0) as [E | _]; [contradiction | reflexivity].
Qed.

(** The unguarded quotient of the loop body, away from 0. *)
Lemma quotient_Fin (c x : R) :
  x <> 0 ->
  ((lit 1 - fexp (- Fin c * fsquare (Fin x))) / Fin x)%fl = Fin (integrand c x).
Proof.
  intros Hx. unfold lit. cbn [fsquare fmul fneg fexp fsub fadd].
  rewrite fdiv_Fin by assumption. rewrite integrand_nonzero by assumption.
  replace (- (c * x ^ 2)) with (- c * (x * x)) by ring. reflexivity.
Qed.

(** The guarded value [y_left], at any finite abscissa. *)
Lemma guarded_quotient_Fin (c x : R) :
  fwhere (feqb (Fin x) (lit 0)) (lit 0)
         ((lit 1 - fexp (- Fin c * fsquare (Fin x))) / Fin x)%fl
  = Fin (integrand c x).
Proof.
  unfold feqb, lit at 1 2. destruct (Req_dec_T x 0) as [E | N].
  - subst x. cbn [fwhere]. now rewrite integrand_zero.
  - cbn [fwhere]. now apply quotient_Fin.
Qed.

Lemma trapezoidal_sum_Fin (r c acc : R) (k : nat) :
  0 < r ->
  Gaussian.trapezoidal_sum (Fin r) (Fin c) (Z.of_nat k) (Fin acc)
  = Fin (acc + trapezoid_term r c k).
Proof.
  intros Hr. unfold Gaussian.trapezoidal_sum.
  assert (Hdx : (Fin r / lit 200)%fl = Fin (r / 200)).
  { unfold lit. apply fdiv_Fin. lra. }
  rewrite Hdx.
  assert (Hl : (Fin (r / 200) * lit (Z.of_nat k))%fl = Fin (INR k * r / 200)).
  { unfold lit. cbn [fmul]. rewrite <- INR_IZR_INZ. f_equal. field. }
  assert (Hr' : (Fin (r / 200) * lit (Z.of_nat k + 1))%fl = Fin (INR (k + 1) * r / 200)).
  { unfold lit. cbn [fmul]. replace (Z.of_nat k + 1)%Z with (Z.of_nat (k + 1)) by lia.
    rewrite <- INR_IZR_INZ. f_equal. field. }
  rewrite Hl, Hr'. rewrite guarded_quotient_Fin.
  rewrite quotient_Fin.
  - unfold lit. cbn [fadd]. rewrite fdiv_Fin by lra. reflexivity.
  - assert (0 < INR (k + 1)) by (apply lt_0_INR; lia).
    apply Rgt_not_eq. apply Rdiv_lt_0_compat; [apply Rmult_lt_0_compat; assumption | lra].
Qed.

Lemma fori_steps_Fin (r c : R) :
  0 < r ->
  forall (n k : nat) (acc : R),
    fori_steps n (Z.of_nat k) (Gaussian.trapezoidal_sum (Fin r) (Fin c)) (Fin acc)
    = Fin (fold_left (fun a i => a + trapezoid_term r c i) (seq k n) acc).
Proof.
  intros Hr n. induction n as [| n IH]; intros k acc.
  - reflexivity.
  - cbn [fori_steps seq fold_left].
    rewrite trapezoidal_sum_Fin by assumption.
    replace (Z.of_nat k + 1)%Z with (Z.of_nat (S k)) by lia.
    apply IH.
Qed.

Lemma num_integral_positive_radius (r c : R) :
  0 < r -> Gaussian._num_integral (Fin r) (Fin c) = Fin (trapezoid_spec r c).
Proof.
  intros Hr. unfold Gaussian._num_integral, fori_loop, trapezoid_spec.
  change (Z.to_nat (200 - 0)) with 200%nat.
  change 0%Z with (Z.of_nat 0). unfold lit.
  change (IZR (Z.of_nat 0)) with 0.
  apply fori_steps_Fin. assumption.
Qed.

(** C2: for r > 0 and c > 0 the code's loop computes the composite
    trapezoidal sum with 200 subintervals, folded left to right from 0,
    of the integrand whose value at 0 is replaced by 0. *)
Theorem num_integral_is_trapezoid_sum (r c : R) :
  0 < r -> 0 < c ->
  Gaussian._num_integral (Fin r) (Fin c) = Fin (trapezoid_spec r c).
Proof. intros Hr _. now apply num_integral_positive_radius. Qed.

Lemma num_integral_is_trapezoid_sum_witness :
  Gaussian._num_integral (Fin 1) (Fin 1) = Fin (trapezoid_spec 1 1).
Proof. apply num_integral_is_trapezoid_sum; lra. Defined.

(** ** The quadrature on arrays *)

Lemma map2_map2_r {A B : Type} (f g : A -> B -> B) (l : list A) (vs : list B) :
  map2 f l (map2 g l vs) = map2 (fun a v => f a (g a v)) l vs.
Proof.
  revert vs. induction l as [| a l IH]; intros [| v vs]; cbn [map2]; try reflexivity.
  now rewrite IH.
Qed.

Lemma map2_const_r {A B C : Type} (f : A -> B -> C) (z : B) (l : list A) :
  map2 f l (map (fun _ => z) l) = map (fun a => f a z) l.
Proof. induction l as [| a l IH]; cbn [map2 map]; [reflexivity | now rewrite IH]. Qed.

Lemma map2_snd {A B : Type} (l : list A) (vs : list B) :
  length vs = length l -> map2 (fun _ v => v) l vs = vs.
Proof.
  revert vs. induction l as [| a l IH]; intros [| v vs] H; cbn in *; try reflexivity;
    try discriminate.
  f_equal. apply IH. lia.
Qed.

Lemma length_map2 {A B C : Type} (f : A -> B -> C) (l : list A) (vs : list B) :
  length vs = length l -> length (map2 f l vs) = length l.
Proof.
  revert vs. induction l as [| a l IH]; intros [| v vs] H; cbn in *; try reflexivity;
    try discriminate.
  f_equal. apply IH. lia.
Qed.

Lemma promote_float64_l (d : dtype) : promote float64 d = float64.
Proof. destruct d; reflexivity. Qed.

Section ArrayLoop.

Variables (r : ndarray) (c : fval).

Lemma nd_steps_shape (n : nat) (i : Z) (val : ndarray) :
  shape (fori_steps n i (GaussianArray.trapezoidal_sum r c) val) = shape val.
Proof.
  revert i val. induction n as [| n IH]; intros i val; cbn [fori_steps].
  - reflexivity.
  - rewrite IH. reflexivity.
Qed.

Lemma nd_steps_dtype (n : nat) (i : Z) (val : ndarray) :
  dtype_of val = float64 ->
  dtype_of (fori_steps n i (GaussianArray.trapezoidal_sum r c) val) = float64.
Proof.
  revert i val. induction n as [| n IH]; intros i val H; cbn [fori_steps].
  - assumption.
  - apply IH. cbn. rewrite H. apply promote_float64_l.
Qed.

Lemma nd_steps_data (n : nat) (i : Z) (val : ndarray) :
  length (data val) = length (data r) ->
  data (fori_steps n i (GaussianArray.trapezoidal_sum r c) val)
  = map2 (fun ri vi => fori_steps n i (Gaussian.trapezoidal_sum ri c) vi)
         (data r) (data val).
Proof.
  revert i val. induction n as [| n IH]; intros i val H; cbn [fori_steps].
  - symmetry. now apply map2_snd.
  - rewrite IH.
    + cbn [GaussianArray.trapezoidal_sum data]. apply map2_map2_r.
    + cbn [GaussianArray.trapezoidal_sum data]. now apply length_map2.
Qed.

(** On an array the loop computes, entry by entry, what the scalar loop
    computes. *)
Lemma num_integral_elementwise :
  data (GaussianArray._num_integral r c)
  = map (fun ri => Gaussian._num_integral ri c) (data r).
Proof.
  unfold GaussianArray._num_integral, fori_loop. rewrite nd_steps_data.
  - unfold GaussianArray.accumulator, zeros_like. cbn [data].
    apply (map2_const_r (fun ri vi =>
      fori_steps (Z.to_nat (200 - 0)) 0 (Gaussian.trapezoidal_sum ri c) vi)).
  - unfold GaussianArray.accumulator, zeros_like. cbn [data]. apply length_map.
Qed.

End ArrayLoop.

(** C8, as amended: the output has the shape of [r] (and one entry per
    entry of [r]); the accumulator is zeros of the shape of [r], and its
    dtype is Python's [float], float64, whatever the dtype of [r]; so is
    the dtype of the output. *)
Theorem num_integral_shape_and_accumulator (r : ndarray) (c : fval) :
  shape (GaussianArray._num_integral r c) = shape r
  /\ length (data (GaussianArray._num_integral r c)) = length (data r)
  /\ dtype_of (GaussianArray._num_integral r c) = float64
  /\ shape (GaussianArray.accumulator r) = shape r
  /\ dtype_of (GaussianArray.accumulator r) = float64
  /\ data (GaussianArray.accumulator r) = map (fun _ => Fin 0) (data r).
Proof.
  split; [| split; [| split; [| split; [| split]]]].
  - unfold GaussianArray._num_integral, fori_loop. now rewrite nd_steps_shape.
  - rewrite num_integral_elementwise. apply length_map.
  - unfold GaussianArray._num_integral, fori_loop. now apply nd_steps_dtype.
  - reflexivity.
  - reflexivity.
  - reflexivity.
Qed.

(** C8, the claim as stated (the accumulator has the dtype of [r]) fails
    for a float32 array of two radii: the accumulator is float64. *)
Lemma accumulator_dtype_differs_from_input :
  let r := {| shape := [2%nat]; dtype_of := float32; data := [Fin 1; Fin 2] |} in
  dtype_of (GaussianArray.accumulator r) <> dtype_of r.
Proof. cbn. discriminate. Qed.

(** ** Monotonicity of the quadrature *)

Lemma exp_le_compat (a b : R) : a <= b -> exp a <= exp b.
Proof.
  intros [L | E].
  - left. now apply exp_increasing.
  - subst. right. reflexivity.
Qed.

(** [r * f (k r / 200)] does not decrease with [r]: for [k > 0] it is
    [(200 / k) * (1 - exp (- c (k r / 200)^2))]. *)
Lemma scaled_integrand_monotone (c k r1 r2 : R) :
  0 < c -> 0 <= k -> 0 < r1 -> r1 <= r2 ->
  integrand c (k * r1 / 200) * r1 <= integrand c (k * r2 / 200) * r2.
Proof.
  intros Hc Hk H1 H12. destruct (Req_dec_T k 0) as [E | N].
  - subst k. replace (0 * r1 / 200) with 0 by field. replace (0 * r2 / 200) with 0 by field.
    rewrite integrand_zero. lra.
  - assert (0 < k) by lra. assert (0 < r2) by lra.
    assert (X1 : k * r1 / 200 <> 0).
    { apply Rgt_not_eq. apply Rdiv_lt_0_compat; [apply Rmult_lt_0_compat; assumption | lra]. }
    assert (X2 : k * r2 / 200 <> 0).
    { apply Rgt_not_eq. apply Rdiv_lt_0_compat; [apply Rmult_lt_0_compat; assumption | lra]. }
    rewrite !integrand_nonzero by assumption.
    replace ((1 - exp (- (c * (k * r1 / 200) ^ 2))) / (k * r1 / 200) * r1)
      with ((1 - exp (- (c * (k * r1 / 200) ^ 2))) * (200 / k)) by (field; lra).
    replace ((1 - exp (- (c * (k * r2 / 200) ^ 2))) / (k * r2 / 200) * r2)
      with ((1 - exp (- (c * (k * r2 / 200) ^ 2))) * (200 / k)) by (field; lra).
    apply Rmult_le_compat_r.
    + left. apply Rdiv_lt_0_compat; lra.
    + assert (Hexp : exp (- (c * (k * r2 / 200) ^ 2)) <= exp (- (c * (k * r1 / 200) ^ 2))).
      { apply exp_le_compat. apply Ropp_le_contravar. apply Rmult_le_compat_l; [lra |].
        assert (0 <= k * r1 / 200) by (left; apply Rdiv_lt_0_compat;
                                       [apply Rmult_lt_0_compat; assumption | lra]).
        assert (k * r1 / 200 <= k * r2 / 200).
        { unfold Rdiv. apply Rmult_le_compat_r; [lra |]. apply Rmult_le_compat_l; lra. }
        simpl. rewrite !Rmult_1_r. apply Rmult_le_compat; lra. }
      lra.
Qed.

Lemma trapezoid_term_monotone (c r1 r2 : R) (i : nat) :
  0 < c -> 0 < r1 -> r1 <= r2 ->
  trapezoid_term r1 c i <= trapezoid_term r2 c i.
Proof.
  intros Hc H1 H12. unfold trapezoid_term.
  pose proof (scaled_integrand_monotone c (INR i) r1 r2 Hc (pos_INR i) H1 H12) as A.
  pose proof (scaled_integrand_monotone c (INR (i + 1)) r1 r2 Hc (pos_INR (i + 1)) H1 H12) as B.
  replace ((integrand c (INR i * r1 / 200) + integrand c (INR (i + 1) * r1 / 200)) / 2
           * (r1 / 200))
    with ((integrand c (INR i * r1 / 200) * r1
           + integrand c (INR (i + 1) * r1 / 200) * r1) / 400) by field.
  replace ((integrand c (INR i * r2 / 200) + integrand c (INR (i + 1) * r2 / 200)) / 2
           * (r2 / 200))
    with ((integrand c (INR i * r2 / 200) * r2
           + integrand c (INR (i + 1) * r2 / 200) * r2) / 400) by field.
  lra.
Qed.

Lemma fold_sum_monotone (t1 t2 : nat -> R) (l : list nat) :
  (forall i, t1 i <= t2 i) ->
  forall a1 a2, a1 <= a2 ->
    fold_left (fun a i => a + t1 i) l a1 <= fold_left (fun a i => a + t2 i) l a2.
Proof.
  intros Ht. induction l as [| i l IH]; intros a1 a2 Ha; cbn [fold_left].
  - assumption.
  - apply IH. pose proof (Ht i). lra.
Qed.

Lemma trapezoid_spec_monotone (c r1 r2 : R) :
  0 < c -> 0 < r1 -> r1 <= r2 -> trapezoid_spec r1 c <= trapezoid_spec r2 c.
Proof.
  intros Hc H1 H12. unfold trapezoid_spec. apply fold_sum_monotone; [| lra].
  intros i. now apply trapezoid_term_monotone.
Qed.

Lemma fleb_Fin_true (x y : R) : x <= y -> fleb (Fin x) (Fin y) = true.
Proof.
  intros [L | E]; unfold fleb.
  - now rewrite fltb_Fin_true.
  - subst. rewrite feqb_Fin_refl. apply orb_true_r.
Qed.

(** Between positive radii the quadrature does not decrease. *)
Lemma num_integral_monotone_positive (c r1 r2 : R) :
  0 < c -> 0 < r1 -> r1 <= r2 ->
  fleb (Gaussian._num_integral (Fin r1) (Fin c)) (Gaussian._num_integral (Fin r2) (Fin c))
  = true.
Proof.
  intros Hc H1 H12. rewrite !num_integral_positive_radius by lra.
  apply fleb_Fin_true. now apply trapezoid_spec_monotone.
Qed.

(** C6 (the claim: for 0 <= r1 <= r2 the quadrature at r1 is at most the
    quadrature at r2).  At r1 = 0, r2 = 1, c = 1 the comparison is false:
    the code returns NaN at radius 0, and NaN is below nothing. *)
Theorem num_integral_not_monotone_from_zero :
  fleb (Gaussian._num_integral (Fin 0) (Fin 1)) (Gaussian._num_integral (Fin 1) (Fin 1))
  = false.
Proof. rewrite num_integral_zero_radius. reflexivity. Qed.

(** ** The Gaussian profile on finite arguments *)

Lemma fsqrt_Fin (x : R) : 0 <= x -> fsqrt (Fin x) = Fin (sqrt x).
Proof.
  intros Hx. unfold fsqrt. destruct (Rlt_dec x 0) as [N | _]; [lra | reflexivity].
Qed.

Lemma ds_pos : 0 < 1 / 100000.
Proof. lra. Qed.

Lemma fadd_Fin (x y : R) : (Fin x + Fin y)%fl = Fin (x + y).
Proof. reflexivity. Qed.

Lemma fsub_Fin (x y : R) : (Fin x - Fin y)%fl = Fin (x - y).
Proof. reflexivity. Qed.

Lemma fmul_Fin (x y : R) : (Fin x * Fin y)%fl = Fin (x * y).
Proof. reflexivity. Qed.

Lemma fneg_Fin (x : R) : (- Fin x)%fl = Fin (- x).
Proof. reflexivity. Qed.

Lemma fexp_Fin (x : R) : fexp (Fin x) = Fin (exp x).
Proof. reflexivity. Qed.

Lemma fsquare_Fin (x : R) : fsquare (Fin x) = Fin (x * x).
Proof. reflexivity. Qed.

(** Positivity of the divisors that occur in gaussian.py. *)
Ltac positive :=
  repeat first
    [ assumption
    | apply PI_RGT_0
    | apply ds_pos
    | lra
    | apply Rdiv_lt_0_compat
    | apply Rmult_lt_0_compat
    | apply sqrt_lt_R0 ].

Ltac nonzero := apply Rgt_not_eq; unfold Rgt; positive.

(** Evaluation on finite operands: the total operations compute, a
    division by a positive number and the square root of a positive
    number are rewritten; anything else is left as it stands. *)
Ltac fin_eval :=
  unfold lit, pi;
  repeat first
    [ rewrite fadd_Fin | rewrite fsub_Fin | rewrite fmul_Fin | rewrite fneg_Fin
    | rewrite fexp_Fin | rewrite fsquare_Fin
    | rewrite fdiv_Fin by nonzero
    | rewrite fsqrt_Fin by (apply Rlt_le; positive) ].

Lemma amp2d_to_3d_Fin (a sx sy : R) :
  0 < sx -> 0 < sy ->
  Gaussian._amp2d_to_3d (Fin a) (Fin sx) (Fin sy)
  = Fin (a / (sqrt PI * sqrt (sx * sy * 2))).
Proof. intros Hx Hy. unfold Gaussian._amp2d_to_3d. fin_eval. reflexivity. Qed.

Lemma amp3d_to_2d_Fin (a sx sy : R) :
  0 < sx -> 0 < sy ->
  Gaussian._amp3d_to_2d (Fin a) (Fin sx) (Fin sy)
  = Fin (a * sqrt PI * sqrt (sx * sy * 2)).
Proof. intros Hx Hy. unfold Gaussian._amp3d_to_2d. fin_eval. reflexivity. Qed.

(** C7: for a > 0 and sigma_x, sigma_y > 0 converting a 2d amplitude to
    3d and back gives the amplitude again (finite values as reals). *)
Theorem amplitude_round_trip (a sx sy : R) :
  0 < a -> 0 < sx -> 0 < sy ->
  Gaussian._amp3d_to_2d (Gaussian._amp2d_to_3d (Fin a) (Fin sx) (Fin sy)) (Fin sx) (Fin sy)
  = Fin a.
Proof.
  intros _ Hx Hy. rewrite amp2d_to_3d_Fin by assumption.
  rewrite amp3d_to_2d_Fin by assumption. f_equal. field.
  split; apply Rgt_not_eq; apply sqrt_lt_R0; positive.
Qed.

Lemma amplitude_round_trip_witness :
  Gaussian._amp3d_to_2d (Gaussian._amp2d_to_3d (Fin 1) (Fin 1) (Fin 1)) (Fin 1) (Fin 1)
  = Fin 1.
Proof. apply amplitude_round_trip; lra. Defined.

Lemma mass_2d_finite (R amp sigma : R) :
  0 < sigma -> is_finite (Gaussian.mass_2d (Fin R) (Fin amp) (Fin sigma)).
Proof.
  intros Hs. unfold Gaussian.mass_2d. fin_eval. eexists. reflexivity.
Qed.

Lemma alpha_abs_finite (R amp sigma : R) :
  0 < R -> 0 < sigma -> is_finite (Gaussian.alpha_abs (Fin R) (Fin amp) (Fin sigma)).
Proof.
  intros HR Hs. unfold Gaussian.alpha_abs.
  rewrite amp2d_to_3d_Fin by assumption.
  destruct (mass_2d_finite R (amp / (sqrt PI * sqrt (sigma * sigma * 2))) sigma Hs) as [m ->].
  fin_eval. eexists. reflexivity.
Qed.

Lemma d_alpha_dr_finite (R amp sx sy : R) :
  0 < R -> 0 < sx -> 0 < sy ->
  is_finite (Gaussian.d_alpha_dr (Fin R) (Fin amp) (Fin sx) (Fin sy)).
Proof.
  intros HR Hx Hy. unfold Gaussian.d_alpha_dr.
  rewrite amp2d_to_3d_Fin by assumption.
  fin_eval. eexists. reflexivity.
Qed.

(** The clamp of [derivatives] ([R <= ds]) and of [hessian] ([r < ds]):
    the radius that is divided by is at least the floor, hence positive. *)
Lemma clamp_le_positive (r0 : R) :
  exists r', fwhere (fleb (Fin r0) Gaussian.ds) Gaussian.ds (Fin r0) = Fin r'
             /\ 1 / 100000 <= r'.
Proof.
  unfold Gaussian.ds, fleb.
  destruct (Rlt_le_dec r0 (1 / 100000)) as [L | G].
  - rewrite fltb_Fin_true by assumption. exists (1 / 100000). split; [reflexivity | lra].
  - rewrite fltb_Fin_false by assumption. cbn [orb].
    destruct (Req_dec_T r0 (1 / 100000)) as [E | N].
    + subst r0. rewrite feqb_Fin_refl. exists (1 / 100000). split; [reflexivity | lra].
    + rewrite feqb_Fin_false by assumption. exists r0. split; [reflexivity | lra].
Qed.

Lemma clamp_lt_positive (r0 : R) :
  exists r', fwhere (fltb (Fin r0) Gaussian.ds) Gaussian.ds (Fin r0) = Fin r'
             /\ 1 / 100000 <= r'.
Proof.
  unfold Gaussian.ds.
  destruct (Rlt_le_dec r0 (1 / 100000)) as [L | G].
  - rewrite fltb_Fin_true by assumption. exists (1 / 100000). split; [reflexivity | lra].
  - rewrite fltb_Fin_false by assumption. exists r0. split; [reflexivity | lra].
Qed.

Lemma radius_Fin (x y cx cy : R) :
  fsqrt (fsquare (Fin x - Fin cx) + fsquare (Fin y - Fin cy))%fl
  = Fin (sqrt ((x - cx) * (x - cx) + (y - cy) * (y - cy))).
Proof.
  rewrite !fsub_Fin, !fsquare_Fin, fadd_Fin. apply fsqrt_Fin.
  pose proof (Rle_0_sqr (x - cx)) as Hx. pose proof (Rle_0_sqr (y - cy)) as Hy.
  unfold Rsqr in Hx, Hy. lra.
Qed.

Lemma Gaussian_derivatives_finite (x y amp sigma cx cy : R) :
  0 < sigma ->
  exists fx fy,
    Gaussian.derivatives (Fin x) (Fin y) (Fin amp) (Fin sigma) (Fin cx) (Fin cy)
    = (Fin fx, Fin fy).
Proof.
  intros Hs. unfold Gaussian.derivatives. cbv zeta. rewrite radius_Fin.
  destruct (clamp_le_positive (sqrt ((x - cx) * (x - cx) + (y - cy) * (y - cy))))
    as [r' [-> Hr']].
  assert (0 < r') by lra.
  destruct (alpha_abs_finite r' amp sigma) as [al ->]; try assumption.
  fin_eval. eexists. eexists. reflexivity.
Qed.

Lemma Gaussian_hessian_finite (x y amp sigma cx cy : R) :
  0 < sigma ->
  exists f_xx f_xy f_yy,
    Gaussian.hessian (Fin x) (Fin y) (Fin amp) (Fin sigma) (Fin cx) (Fin cy)
    = (Fin f_xx, Fin f_xy, Fin f_xy, Fin f_yy).
Proof.
  intros Hs. unfold Gaussian.hessian. cbv zeta. rewrite radius_Fin.
  destruct (clamp_lt_positive (sqrt ((x - cx) * (x - cx) + (y - cy) * (y - cy))))
    as [r' [-> Hr']].
  assert (0 < r') by lra.
  destruct (alpha_abs_finite r' amp sigma) as [al ->]; try assumption.
  destruct (d_alpha_dr_finite r' amp sigma sigma) as [d ->]; try assumption.
  fin_eval. do 3 eexists. reflexivity.
Qed.

(** At the center the radius is 0 and the clamp replaces it by the floor. *)
Lemma clamped_radius_at_center (cx cy : R) :
  fwhere (fleb (fsqrt (fsquare (Fin cx - Fin cx) + fsquare (Fin cy - Fin cy))%fl) Gaussian.ds)
         Gaussian.ds
         (fsqrt (fsquare (Fin cx - Fin cx) + fsquare (Fin cy - Fin cy))%fl)
  = Gaussian.ds.
Proof.
  rewrite radius_Fin.
  replace ((cx - cx) * (cx - cx) + (cy - cy) * (cy - cy)) with 0 by ring.
  rewrite sqrt_0. unfold fleb, Gaussian.ds. rewrite fltb_Fin_true by lra. reflexivity.
Qed.

Lemma Gaussian_derivatives_center (amp sigma cx cy : R) :
  0 < sigma ->
  Gaussian.derivatives (Fin cx) (Fin cy) (Fin amp) (Fin sigma) (Fin cx) (Fin cy)
  = (Fin 0, Fin 0).
Proof.
  intros Hs. unfold Gaussian.derivatives. cbv zeta.
  rewrite clamped_radius_at_center. unfold Gaussian.ds.
  destruct (alpha_abs_finite (1 / 100000) amp sigma) as [al ->]; try assumption; try lra.
  fin_eval. f_equal; f_equal; ring.
Qed.

(** ** The Gaussian profile at sigma = 0 *)

Lemma fdiv_pos_zero (x y : R) : 0 < x -> y = 0 -> (Fin x / Fin y)%fl = PInf.
Proof.
  intros Hx Hy. unfold fdiv.
  destruct (Req_dec_T y 0) as [_ | N]; [now apply by_sign_pos | contradiction].
Qed.

Lemma fdiv_PInf_zero (y : R) : y = 0 -> (PInf / Fin y)%fl = PInf.
Proof.
  intros ->. unfold fdiv. destruct (Rlt_dec 0 0) as [L | _]; [lra | reflexivity].
Qed.

Lemma fmul_PInf_pos (x : R) : 0 < x -> (PInf * Fin x)%fl = PInf.
Proof. intros Hx. unfold fmul. now apply by_sign_pos. Qed.

Lemma fmul_pos_PInf (x : R) : 0 < x -> (Fin x * PInf)%fl = PInf.
Proof. intros Hx. unfold fmul. now apply by_sign_pos. Qed.

Lemma sqrt_zero_product : sqrt PI * sqrt (0 * 0 * 2) = 0.
Proof. replace (0 * 0 * 2) with 0 by ring. rewrite sqrt_0. ring. Qed.

Lemma amp2d_to_3d_sigma_zero :
  Gaussian._amp2d_to_3d (Fin 1) (Fin 0) (Fin 0) = PInf.
Proof.
  unfold Gaussian._amp2d_to_3d, pi, lit. rewrite !fmul_Fin.
  rewrite fsqrt_Fin by (pose proof PI_RGT_0; lra). rewrite fsqrt_Fin by lra.
  rewrite fmul_Fin. apply fdiv_pos_zero; [lra | apply sqrt_zero_product].
Qed.

Lemma mass_2d_sigma_zero (R : fval) : Gaussian.mass_2d R PInf (Fin 0) = NaN.
Proof.
  unfold Gaussian.mass_2d, pi, lit. cbv zeta. rewrite !fmul_Fin.
  rewrite fsqrt_Fin by (pose proof PI_RGT_0; lra). rewrite fsqrt_Fin by lra.
  rewrite fmul_Fin. rewrite (fdiv_PInf_zero _ sqrt_zero_product).
  rewrite (fdiv_pos_zero 1 (2 * 0 * 0)) by lra.
  rewrite (fmul_PInf_pos 2) by lra.
  rewrite (fmul_PInf_pos PI) by apply PI_RGT_0.
  rewrite (fmul_PInf_pos 1) by lra.
  rewrite (fmul_pos_PInf 2) by lra.
  reflexivity.
Qed.

Lemma Gaussian_derivatives_sigma_zero :
  Gaussian.derivatives (Fin 0) (Fin 0) (Fin 1) (Fin 0) (Fin 0) (Fin 0) = (NaN, NaN).
Proof.
  unfold Gaussian.derivatives. cbv zeta. rewrite clamped_radius_at_center.
  unfold Gaussian.alpha_abs. cbv zeta.
  rewrite amp2d_to_3d_sigma_zero, mass_2d_sigma_zero. reflexivity.
Qed.


(** ** sis.py: the mass and density helpers

    These methods mention only [np], which the module binds, so they
    return values. *)

Lemma load_np_sqrt : Py.attr_sqrt Py.jax_numpy = Py.Ok fsqrt.
Proof. reflexivity. Qed.

Lemma SIS_mass_3d_Fin (r rho0 : R) :
  SIS.mass_3d (Fin r) (Fin rho0) = Py.Ok (Fin (4 * PI * rho0 * r)).
Proof. unfold SIS.mass_3d. rewrite load_np. reflexivity. Qed.

Lemma SIS_mass_2d_Fin (r rho0 : R) :
  SIS.mass_2d (Fin r) (Fin rho0) = Py.Ok (Fin (2 * rho0 * (PI * PI) * r)).
Proof. unfold SIS.mass_2d. rewrite load_np. reflexivity. Qed.

Lemma SIS_density_Fin (r rho0 : R) :
  r <> 0 -> SIS.density (Fin r) (Fin rho0) = Py.Ok (Fin (rho0 / (r * r))).
Proof.
  intros Hr. unfold SIS.density. rewrite fsquare_Fin.
  rewrite fdiv_Fin; [reflexivity |]. now apply Rmult_integral_contrapositive_currified.
Qed.

Lemma offset_radius_positive (x y cx cy : R) :
  x <> cx \/ y <> cy -> 0 < sqrt ((x - cx) * (x - cx) + (y - cy) * (y - cy)).
Proof.
  intros H. apply sqrt_lt_R0.
  pose proof (Rle_0_sqr (x - cx)) as Hx. pose proof (Rle_0_sqr (y - cy)) as Hy.
  unfold Rsqr in Hx, Hy.
  destruct H as [H | H].
  - assert (0 < (x - cx) * (x - cx)) by (apply Rsqr_pos_lt; lra). lra.
  - assert (0 < (y - cy) * (y - cy)) by (apply Rsqr_pos_lt; lra). lra.
Qed.

(** X1: in lens units the mass inside a sphere of radius r is
    [2 * theta_E * r], and the mass inside a projected circle of radius r
    is [pi * theta_E * r]; both calls return. *)
Theorem SIS_lens_masses (r theta_E : R) :
  SIS.mass_3d_lens (Fin r) (Fin theta_E) = Py.Ok (Fin (2 * theta_E * r))
  /\ SIS.mass_2d_lens (Fin r) (Fin theta_E) = Py.Ok (Fin (PI * theta_E * r)).
Proof.
  pose proof PI_RGT_0 as Hpi. split.
  - unfold SIS.mass_3d_lens. rewrite SIS_theta2rho_Fin. cbn [Py.bind].
    rewrite SIS_mass_3d_Fin. do 2 f_equal. field. lra.
  - unfold SIS.mass_2d_lens. rewrite SIS_theta2rho_Fin. cbn [Py.bind].
    rewrite SIS_mass_2d_Fin. do 2 f_equal. field. lra.
Qed.

(** X2: for one density parameter the projected mass inside radius r is
    pi/2 times the mass inside the sphere of the same radius. *)
Theorem SIS_mass_2d_over_mass_3d (r rho0 : R) :
  exists m3,
    SIS.mass_3d (Fin r) (Fin rho0) = Py.Ok (Fin m3)
    /\ SIS.mass_2d (Fin r) (Fin rho0) = Py.Ok (Fin (PI / 2 * m3)).
Proof.
  exists (4 * PI * rho0 * r). split.
  - apply SIS_mass_3d_Fin.
  - rewrite SIS_mass_2d_Fin. do 2 f_equal. field.
Qed.

Lemma SIS_grav_pot_off_center (x y rho0 cx cy : R) :
  x <> cx \/ y <> cy ->
  SIS.grav_pot (Fin x) (Fin y) (Fin rho0) (Fin cx) (Fin cy) = Py.Ok (Fin (4 * PI * rho0)).
Proof.
  intros H. pose proof (offset_radius_positive x y cx cy H) as Hr.
  unfold SIS.grav_pot. cbv zeta. rewrite load_np. cbn [Py.bind]. rewrite load_np_sqrt.
  cbn [Py.bind]. rewrite radius_Fin, SIS_mass_3d_Fin. cbn [Py.bind].
  rewrite fdiv_Fin by lra. do 2 f_equal. field. lra.
Qed.

Lemma SIS_grav_pot_center (rho0 cx cy : R) :
  SIS.grav_pot (Fin cx) (Fin cy) (Fin rho0) (Fin cx) (Fin cy) = Py.Ok NaN.
Proof.
  unfold SIS.grav_pot. cbv zeta. rewrite load_np. cbn [Py.bind]. rewrite load_np_sqrt.
  cbn [Py.bind]. rewrite radius_Fin.
  replace ((cx - cx) * (cx - cx) + (cy - cy) * (cy - cy)) with 0 by ring.
  rewrite sqrt_0, SIS_mass_3d_Fin. cbn [Py.bind].
  rewrite fdiv_zero_zero; [reflexivity | ring | reflexivity].
Qed.

(** X3: at the center [grav_pot] divides 0 by the radius 0 with no
    guard: it returns NaN, for every finite density parameter and
    center. *)
Theorem SIS_grav_pot_center_is_nan (rho0 center_x center_y : R) :
  SIS.grav_pot (Fin center_x) (Fin center_y) (Fin rho0) (Fin center_x) (Fin center_y)
  = Py.Ok NaN.
Proof. apply SIS_grav_pot_center. Qed.

Lemma SIS_density_2d_off_center (x y rho0 cx cy : R) :
  x <> cx \/ y <> cy ->
  SIS.density_2d (Fin x) (Fin y) (Fin rho0) (Fin cx) (Fin cy)
  = Py.Ok (Fin (PI * rho0 / sqrt ((x - cx) * (x - cx) + (y - cy) * (y - cy)))).
Proof.
  intros H. pose proof (offset_radius_positive x y cx cy H) as Hr.
  unfold SIS.density_2d. cbv zeta. rewrite load_np. cbn [Py.bind]. rewrite load_np_sqrt.
  cbn [Py.bind Py.attr_pi]. rewrite radius_Fin. unfold pi. rewrite fmul_Fin.
  rewrite fdiv_Fin by lra. reflexivity.
Qed.

(** X4: with the density parameter of an Einstein radius theta_E,
    [density_2d] off the center is the convergence of the class
    docstring, [1/2 * (theta_E / sqrt (x^2 + y^2))], taken from the
    center. *)
Theorem SIS_density_2d_is_docstring_kappa (x y theta_E center_x center_y : R) :
  x <> center_x \/ y <> center_y ->
  (rho0 <- SIS.theta2rho (Fin theta_E) ;;
   SIS.density_2d (Fin x) (Fin y) rho0 (Fin center_x) (Fin center_y))
  = Py.Ok (Fin (1 / 2 * (theta_E / sqrt ((x - center_x) ^ 2 + (y - center_y) ^ 2)))).
Proof.
  intros H. pose proof (offset_radius_positive x y center_x center_y H) as Hr.
  pose proof PI_RGT_0 as Hpi.
  rewrite SIS_theta2rho_Fin. cbn [Py.bind]. rewrite SIS_density_2d_off_center by assumption.
  replace ((x - center_x) ^ 2 + (y - center_y) ^ 2)
    with ((x - center_x) * (x - center_x) + (y - center_y) * (y - center_y)) by ring.
  do 2 f_equal. field. split; lra.
Qed.

Lemma SIS_density_2d_is_docstring_kappa_witness :
  (rho0 <- SIS.theta2rho (Fin 1) ;;
   SIS.density_2d (Fin 1) (Fin 0) rho0 (Fin 0) (Fin 0))
  = Py.Ok (Fin (1 / 2 * (1 / sqrt ((1 - 0) ^ 2 + (0 - 0) ^ 2)))).
Proof. apply SIS_density_2d_is_docstring_kappa. left. lra. Defined.

(** X5: at the center [density_2d] divides by the radius 0 with no
    floor: for a positive density parameter the result is +infinity. *)
Theorem SIS_density_2d_center_is_infinite (rho0 center_x center_y : R) :
  0 < rho0 ->
  SIS.density_2d (Fin center_x) (Fin center_y) (Fin rho0) (Fin center_x) (Fin center_y)
  = Py.Ok PInf.
Proof.
  intros Hrho. unfold SIS.density_2d. cbv zeta. rewrite load_np. cbn [Py.bind].
  rewrite load_np_sqrt. cbn [Py.bind Py.attr_pi]. rewrite radius_Fin.
  replace ((center_x - center_x) * (center_x - center_x)
           + (center_y - center_y) * (center_y - center_y)) with 0 by ring.
  rewrite sqrt_0. unfold pi. rewrite fmul_Fin.
  rewrite fdiv_pos_zero; [reflexivity | | reflexivity].
  apply Rmult_lt_0_compat; [apply PI_RGT_0 | assumption].
Qed.

Lemma SIS_density_2d_center_is_infinite_witness :
  SIS.density_2d (Fin 0) (Fin 0) (Fin 1) (Fin 0) (Fin 0) = Py.Ok PInf.
Proof. apply SIS_density_2d_center_is_infinite. lra. Defined.

(** ** gaussian.py: closed forms on finite arguments *)

Lemma sqrt_PI_sqr : sqrt PI * sqrt PI = PI.
Proof. apply sqrt_sqrt. left. apply PI_RGT_0. Qed.

Lemma sqrt_2sigma_sqr (sigma : R) :
  sqrt (sigma * sigma * 2) * sqrt (sigma * sigma * 2) = 2 * sigma * sigma.
Proof. rewrite sqrt_sqrt by nra. ring. Qed.

Lemma sqrt_PI_pos : 0 < sqrt PI.
Proof. apply sqrt_lt_R0, PI_RGT_0. Qed.

Lemma sqrt_2sigma_pos (sigma : R) : 0 < sigma -> 0 < sqrt (sigma * sigma * 2).
Proof. intros Hs. apply sqrt_lt_R0. positive. Qed.

(** The enclosed projected mass in lens units. *)
Lemma mass_2d_lens_Fin (R amp sigma : R) :
  0 < sigma ->
  Gaussian.mass_2d_lens (Fin R) (Fin amp) (Fin sigma)
  = Fin (amp * (1 - exp (- (R * R / (2 * sigma * sigma))))).
Proof.
  intros Hs. unfold Gaussian.mass_2d_lens. cbv zeta.
  rewrite amp2d_to_3d_Fin by assumption. unfold Gaussian.mass_2d. fin_eval.
  f_equal.
  replace (- (1 / (2 * sigma * sigma)) * (R * R)) with (- (R * R / (2 * sigma * sigma)))
    by (field; lra).
  pose proof sqrt_PI_sqr as Ha. pose proof (sqrt_2sigma_sqr sigma) as Hb.
  pose proof sqrt_PI_pos as Ha0. pose proof (sqrt_2sigma_pos sigma Hs) as Hb0.
  set (E := 1 - exp (- (R * R / (2 * sigma * sigma)))).
  set (a := sqrt PI) in *. set (b := sqrt (sigma * sigma * 2)) in *.
  clearbody a b E. rewrite <- Hb, <- Ha.
  field. split; lra.
Qed.

Lemma alpha_abs_Fin (R amp sigma : R) :
  0 < R -> 0 < sigma ->
  Gaussian.alpha_abs (Fin R) (Fin amp) (Fin sigma)
  = Fin (amp * (1 - exp (- (R * R / (2 * sigma * sigma)))) / PI / R).
Proof.
  intros HR Hs.
  change (Gaussian.alpha_abs (Fin R) (Fin amp) (Fin sigma))
    with (Gaussian.mass_2d_lens (Fin R) (Fin amp) (Fin sigma) / pi / Fin R)%fl.
  rewrite mass_2d_lens_Fin by assumption. fin_eval. reflexivity.
Qed.

Lemma d_alpha_dr_Fin (R amp sigma : R) :
  0 < R -> 0 < sigma ->
  Gaussian.d_alpha_dr (Fin R) (Fin amp) (Fin sigma) (Fin sigma)
  = Fin (amp / PI
         * (-1 + (1 + R * R / (sigma * sigma)) * exp (- (R * R / (2 * sigma * sigma))))
         / (R * R)).
Proof.
  intros HR Hs. unfold Gaussian.d_alpha_dr. cbv zeta.
  rewrite amp2d_to_3d_Fin by assumption. fin_eval. f_equal.
  replace (- (1 / (2 * sigma * sigma)) * (R * R)) with (- (R * R / (2 * sigma * sigma)))
    by (field; lra).
  replace (2 / PI * sigma * sigma) with (sigma * sigma * 2 / PI)
    by (field; pose proof PI_RGT_0; lra).
  rewrite sqrt_div_alt by apply PI_RGT_0.
  pose proof sqrt_PI_sqr as Ha. pose proof sqrt_PI_pos as Ha0.
  pose proof (sqrt_2sigma_pos sigma Hs) as Hb0.
  set (E := exp (- (R * R / (2 * sigma * sigma)))).
  set (a := sqrt PI) in *. set (b := sqrt (sigma * sigma * 2)) in *.
  clearbody a b E. rewrite <- Ha. field. repeat split; lra.
Qed.

(** X6: for sigma > 0 the projected mass inside radius R, in lens units,
    is [amp * (1 - exp (- R^2 / (2 sigma^2)))]. *)
Theorem Gaussian_mass_2d_lens_closed_form (R amp sigma : R) :
  0 < sigma ->
  Gaussian.mass_2d_lens (Fin R) (Fin amp) (Fin sigma)
  = Fin (amp * (1 - exp (- (R ^ 2 / (2 * sigma ^ 2))))).
Proof.
  intros Hs. rewrite mass_2d_lens_Fin by assumption.
  replace (R ^ 2 / (2 * sigma ^ 2)) with (R * R / (2 * sigma * sigma)) by (field; lra).
  reflexivity.
Qed.

Lemma Gaussian_mass_2d_lens_closed_form_witness :
  Gaussian.mass_2d_lens (Fin 1) (Fin 1) (Fin 1)
  = Fin (1 * (1 - exp (- (1 ^ 2 / (2 * 1 ^ 2))))).
Proof. apply Gaussian_mass_2d_lens_closed_form. lra. Defined.

Lemma exp_neg_le_1 (t : R) : 0 <= t -> exp (- t) <= 1.
Proof. intros Ht. rewrite <- exp_0. apply exp_le_compat. lra. Qed.


(** X8: [alpha_abs] itself has no guard: at R = 0 it is NaN (0 / 0) for
    every finite amp and sigma > 0; it is its callers that clamp. *)
Theorem Gaussian_alpha_abs_zero_radius (amp sigma : R) :
  0 < sigma ->
  Gaussian.alpha_abs (Fin 0) (Fin amp) (Fin sigma) = NaN.
Proof.
  intros Hs.
  change (Gaussian.alpha_abs (Fin 0) (Fin amp) (Fin sigma))
    with (Gaussian.mass_2d_lens (Fin 0) (Fin amp) (Fin sigma) / pi / Fin 0)%fl.
  rewrite mass_2d_lens_Fin by assumption. unfold pi.
  rewrite fdiv_Fin by (apply Rgt_not_eq, PI_RGT_0).
  apply fdiv_zero_zero; [| reflexivity].
  replace (0 * 0 / (2 * sigma * sigma)) with 0 by (field; lra).
  rewrite Ropp_0, exp_0. field. apply Rgt_not_eq, PI_RGT_0.
Qed.

Lemma Gaussian_alpha_abs_zero_radius_witness :
  Gaussian.alpha_abs (Fin 0) (Fin 1) (Fin 1) = NaN.
Proof. apply Gaussian_alpha_abs_zero_radius. lra. Defined.

(** The derivative of the closed form of the deflection. *)
Lemma deflection_derivative (amp sigma R : R) :
  0 < sigma -> 0 < R ->
  derivable_pt_lim
    (fun r => amp * (1 - exp (- (r * r / (2 * sigma * sigma)))) / PI / r) R
    (amp / PI
     * (-1 + (1 + R * R / (sigma * sigma)) * exp (- (R * R / (2 * sigma * sigma))))
     / (R * R)).
Proof.
  intros Hs HR. pose proof PI_RGT_0 as Hpi.
  set (k := 1 / (2 * sigma * sigma)).
  set (inner := mult_real_fct (- k) Rsqr).
  assert (Dinner : derivable_pt_lim inner R (- k * (2 * R))).
  { apply derivable_pt_lim_scal, derivable_pt_lim_Rsqr. }
  assert (Dexp : derivable_pt_lim (comp exp inner) R (exp (inner R) * (- k * (2 * R)))).
  { apply derivable_pt_lim_comp; [exact Dinner | apply derivable_pt_lim_exp]. }
  set (u := (fct_cte (amp / PI) - mult_real_fct (amp / PI) (comp exp inner))%F).
  assert (Du : derivable_pt_lim u R (0 - amp / PI * (exp (inner R) * (- k * (2 * R))))).
  { apply derivable_pt_lim_minus; [apply derivable_pt_lim_const |].
    apply derivable_pt_lim_scal. exact Dexp. }
  assert (Dg : derivable_pt_lim (u / id)%F R
                 (((0 - amp / PI * (exp (inner R) * (- k * (2 * R)))) * id R - 1 * u R)
                  / (id R)²)).
  { apply derivable_pt_lim_div; [exact Du | apply derivable_pt_lim_id |].
    unfold id. lra. }
  assert (Einner : forall r, inner r = - (r * r / (2 * sigma * sigma))).
  { intros r. unfold inner, mult_real_fct, Rsqr, k. field. lra. }
  apply (derivable_pt_lim_locally_ext (u / id)%F _ R (R / 2) (R + 1)); [lra | |].
  - intros z Hz. unfold div_fct, u, minus_fct, fct_cte, mult_real_fct, comp, id.
    rewrite Einner. field. split; lra.
  - replace (amp / PI
             * (-1 + (1 + R * R / (sigma * sigma)) * exp (- (R * R / (2 * sigma * sigma))))
             / (R * R))
      with (((0 - amp / PI * (exp (inner R) * (- k * (2 * R)))) * id R - 1 * u R) / (id R)²).
    + exact Dg.
    + unfold u, minus_fct, fct_cte, mult_real_fct, comp, id, Rsqr. rewrite Einner.
      unfold k. field. repeat split; lra.
Qed.

(** X9: [d_alpha_dr] is the derivative of [alpha_abs] with respect to
    the radius: at every R > 0, for sigma > 0, the function
    [r |-> alpha_abs r amp sigma] is differentiable with derivative
    [d_alpha_dr R amp sigma sigma]. *)
Theorem Gaussian_d_alpha_dr_is_derivative (amp sigma R : R) :
  0 < sigma -> 0 < R ->
  derivable_pt_lim
    (fun r => real_of (Gaussian.alpha_abs (Fin r) (Fin amp) (Fin sigma))) R
    (real_of (Gaussian.d_alpha_dr (Fin R) (Fin amp) (Fin sigma) (Fin sigma))).
Proof.
  intros Hs HR. rewrite d_alpha_dr_Fin by assumption. cbn [real_of].
  apply (derivable_pt_lim_locally_ext
           (fun r => amp * (1 - exp (- (r * r / (2 * sigma * sigma)))) / PI / r)
           _ R (R / 2) (R + 1)); [lra | |].
  - intros z Hz. rewrite alpha_abs_Fin by lra. reflexivity.
  - now apply deflection_derivative.
Qed.

Lemma Gaussian_d_alpha_dr_is_derivative_witness :
  derivable_pt_lim
    (fun r => real_of (Gaussian.alpha_abs (Fin r) (Fin 1) (Fin 1))) 1
    (real_of (Gaussian.d_alpha_dr (Fin 1) (Fin 1) (Fin 1) (Fin 1))).
Proof. apply Gaussian_d_alpha_dr_is_derivative; lra. Defined.

(** ** gaussian.py: deflection and Hessian at a finite point *)

Lemma clamp_le_Rmax (r0 : R) :
  fwhere (fleb (Fin r0) Gaussian.ds) Gaussian.ds (Fin r0) = Fin (Rmax r0 (1 / 100000)).
Proof.
  unfold Gaussian.ds, fleb, Rmax.
  destruct (Rle_dec r0 (1 / 100000)) as [[L | E] | G].
  - now rewrite fltb_Fin_true.
  - subst r0. rewrite fltb_Fin_false by lra. now rewrite feqb_Fin_refl.
  - rewrite fltb_Fin_false by lra. rewrite feqb_Fin_false by lra. reflexivity.
Qed.

Lemma clamp_lt_Rmax (r0 : R) :
  fwhere (fltb (Fin r0) Gaussian.ds) Gaussian.ds (Fin r0) = Fin (Rmax r0 (1 / 100000)).
Proof.
  unfold Gaussian.ds, Rmax.
  destruct (Rle_dec r0 (1 / 100000)) as [[L | E] | G].
  - now rewrite fltb_Fin_true.
  - subst r0. now rewrite fltb_Fin_false by lra.
  - now rewrite fltb_Fin_false by lra.
Qed.

Lemma Rmax_floor_pos (r0 : R) : 0 < Rmax r0 (1 / 100000).
Proof. pose proof (Rmax_r r0 (1 / 100000)). lra. Qed.

(** The deflection at a finite point: a factor that depends on the
    clamped radius only, times the offsets. *)
Lemma Gaussian_derivatives_Fin (x y amp sigma cx cy : R) :
  0 < sigma ->
  let r := Rmax (sqrt ((x - cx) * (x - cx) + (y - cy) * (y - cy))) (1 / 100000) in
  let a := amp * (1 - exp (- (r * r / (2 * sigma * sigma)))) / PI / r in
  Gaussian.derivatives (Fin x) (Fin y) (Fin amp) (Fin sigma) (Fin cx) (Fin cy)
  = (Fin (a / r * (x - cx)), Fin (a / r * (y - cy))).
Proof.
  intros Hs r a. unfold Gaussian.derivatives. cbv zeta.
  rewrite radius_Fin, clamp_le_Rmax. fold r.
  pose proof (Rmax_floor_pos (sqrt ((x - cx) * (x - cx) + (y - cy) * (y - cy)))) as Hr.
  fold r in Hr. rewrite alpha_abs_Fin by assumption. fold a.
  rewrite !fsub_Fin. rewrite !fdiv_Fin by lra. reflexivity.
Qed.

Lemma deflection_factor_nonneg (amp sigma r : R) :
  0 <= amp -> 0 < sigma -> 0 < r ->
  0 <= amp * (1 - exp (- (r * r / (2 * sigma * sigma)))) / PI / r / r.
Proof.
  intros Ha Hs Hr. pose proof PI_RGT_0 as Hpi.
  assert (T : 0 <= r * r / (2 * sigma * sigma)).
  { apply Rmult_le_pos; [nra | left; apply Rinv_0_lt_compat; positive]. }
  pose proof (exp_neg_le_1 _ T) as E.
  repeat (apply Rmult_le_pos; [| left; apply Rinv_0_lt_compat; assumption]).
  apply Rmult_le_pos; lra.
Qed.

(** X10: for sigma > 0 the deflection at every finite point is radial,
    [f_x * (y - center_y) = f_y * (x - center_x)], and for amp >= 0 it
    points away from the center: [f_x] has the sign of [x - center_x] and
    [f_y] the sign of [y - center_y]. *)
Theorem Gaussian_derivatives_radial (x y amp sigma center_x center_y : R) :
  0 <= amp -> 0 < sigma ->
  exists f_x f_y,
    Gaussian.derivatives (Fin x) (Fin y) (Fin amp) (Fin sigma) (Fin center_x) (Fin center_y)
    = (Fin f_x, Fin f_y)
    /\ f_x * (y - center_y) = f_y * (x - center_x)
    /\ 0 <= f_x * (x - center_x)
    /\ 0 <= f_y * (y - center_y).
Proof.
  intros Ha Hs. rewrite Gaussian_derivatives_Fin by assumption. cbv zeta.
  set (r := Rmax _ _).
  pose proof (Rmax_floor_pos
                (sqrt ((x - center_x) * (x - center_x) + (y - center_y) * (y - center_y))))
    as Hr. fold r in Hr.
  pose proof (deflection_factor_nonneg amp sigma r Ha Hs Hr) as Hq.
  set (q := amp * (1 - exp (- (r * r / (2 * sigma * sigma)))) / PI / r / r) in *.
  do 2 eexists. split; [reflexivity |]. split; [ring |].
  pose proof (Rle_0_sqr (x - center_x)) as Hx. pose proof (Rle_0_sqr (y - center_y)) as Hy.
  unfold Rsqr in Hx, Hy.
  split.
  - replace (q * (x - center_x) * (x - center_x))
      with (q * ((x - center_x) * (x - center_x))) by ring.
    now apply Rmult_le_pos.
  - replace (q * (y - center_y) * (y - center_y))
      with (q * ((y - center_y) * (y - center_y))) by ring.
    now apply Rmult_le_pos.
Qed.

Lemma Gaussian_derivatives_radial_witness :
  exists f_x f_y,
    Gaussian.derivatives (Fin 1) (Fin 0) (Fin 1) (Fin 1) (Fin 0) (Fin 0) = (Fin f_x, Fin f_y)
    /\ f_x * (0 - 0) = f_y * (1 - 0)
    /\ 0 <= f_x * (1 - 0)
    /\ 0 <= f_y * (0 - 0).
Proof. apply Gaussian_derivatives_radial; lra. Defined.

(** X11: outside the floor (radius above 1e-5) the length of the
    deflection is [alpha_abs] of the radius: [f_x^2 + f_y^2 = alpha^2]. *)
Theorem Gaussian_derivatives_magnitude (x y amp sigma center_x center_y : R) :
  0 < sigma ->
  1 / 100000 < sqrt ((x - center_x) ^ 2 + (y - center_y) ^ 2) ->
  exists f_x f_y alpha,
    Gaussian.derivatives (Fin x) (Fin y) (Fin amp) (Fin sigma) (Fin center_x) (Fin center_y)
    = (Fin f_x, Fin f_y)
    /\ Gaussian.alpha_abs (Fin (sqrt ((x - center_x) ^ 2 + (y - center_y) ^ 2)))
                          (Fin amp) (Fin sigma) = Fin alpha
    /\ f_x ^ 2 + f_y ^ 2 = alpha ^ 2.
Proof.
  intros Hs.
  replace ((x - center_x) ^ 2 + (y - center_y) ^ 2)
    with ((x - center_x) * (x - center_x) + (y - center_y) * (y - center_y)) by ring.
  intros Hr. rewrite Gaussian_derivatives_Fin by assumption. cbv zeta.
  rewrite Rmax_left by lra.
  set (r := sqrt _) in *. assert (0 < r) by lra.
  rewrite alpha_abs_Fin by assumption.
  do 3 eexists. split; [reflexivity |]. split; [reflexivity |].
  assert (Hrr : r * r = (x - center_x) * (x - center_x) + (y - center_y) * (y - center_y)).
  { unfold r. apply sqrt_sqrt.
    pose proof (Rle_0_sqr (x - center_x)) as Hx. pose proof (Rle_0_sqr (y - center_y)) as Hy.
    unfold Rsqr in Hx, Hy. lra. }
  set (a := amp * (1 - exp (- (r * r / (2 * sigma * sigma)))) / PI / r).
  replace ((a / r * (x - center_x)) ^ 2 + (a / r * (y - center_y)) ^ 2)
    with (a ^ 2 * ((x - center_x) * (x - center_x) + (y - center_y) * (y - center_y))
          / (r * r)) by (field; lra).
  rewrite <- Hrr. field. lra.
Qed.

Lemma Gaussian_derivatives_magnitude_witness :
  exists f_x f_y alpha,
    Gaussian.derivatives (Fin 1) (Fin 0) (Fin 1) (Fin 1) (Fin 0) (Fin 0) = (Fin f_x, Fin f_y)
    /\ Gaussian.alpha_abs (Fin (sqrt ((1 - 0) ^ 2 + (0 - 0) ^ 2))) (Fin 1) (Fin 1) = Fin alpha
    /\ f_x ^ 2 + f_y ^ 2 = alpha ^ 2.
Proof.
  apply Gaussian_derivatives_magnitude; [lra |].
  replace ((1 - 0) ^ 2 + (0 - 0) ^ 2) with 1 by ring. rewrite sqrt_1. lra.
Defined.

(** X12: the deflection is odd about the center: at the mirror image
    [center - d] of a point [center + d] it is the opposite vector. *)
Theorem Gaussian_derivatives_odd (dx dy amp sigma center_x center_y : R) :
  0 < sigma ->
  exists f_x f_y,
    Gaussian.derivatives (Fin (center_x + dx)) (Fin (center_y + dy)) (Fin amp) (Fin sigma)
                         (Fin center_x) (Fin center_y)
    = (Fin f_x, Fin f_y)
    /\ Gaussian.derivatives (Fin (center_x - dx)) (Fin (center_y - dy)) (Fin amp) (Fin sigma)
                            (Fin center_x) (Fin center_y)
       = (Fin (- f_x), Fin (- f_y)).
Proof.
  intros Hs. rewrite !Gaussian_derivatives_Fin by assumption. cbv zeta.
  replace ((center_x - dx - center_x) * (center_x - dx - center_x)
           + (center_y - dy - center_y) * (center_y - dy - center_y))
    with ((center_x + dx - center_x) * (center_x + dx - center_x)
          + (center_y + dy - center_y) * (center_y + dy - center_y)) by ring.
  set (r := Rmax _ _).
  do 2 eexists. split; [reflexivity |]. f_equal; f_equal; ring.
Qed.

Lemma Gaussian_derivatives_odd_witness :
  exists f_x f_y,
    Gaussian.derivatives (Fin (0 + 1)) (Fin (0 + 2)) (Fin 1) (Fin 1) (Fin 0) (Fin 0)
    = (Fin f_x, Fin f_y)
    /\ Gaussian.derivatives (Fin (0 - 1)) (Fin (0 - 2)) (Fin 1) (Fin 1) (Fin 0) (Fin 0)
       = (Fin (- f_x), Fin (- f_y)).
Proof. apply Gaussian_derivatives_odd. lra. Defined.

(** The Hessian at a finite point, in terms of the clamped radius. *)
Lemma Gaussian_hessian_Fin (x y amp sigma cx cy : R) :
  0 < sigma ->
  let r := Rmax (sqrt ((x - cx) * (x - cx) + (y - cy) * (y - cy))) (1 / 100000) in
  let E := exp (- (r * r / (2 * sigma * sigma))) in
  let a := amp * (1 - E) / PI / r in
  let d := - (amp / PI * (-1 + (1 + r * r / (sigma * sigma)) * E) / (r * r)) in
  Gaussian.hessian (Fin x) (Fin y) (Fin amp) (Fin sigma) (Fin cx) (Fin cy)
  = (Fin (- (d / r + a / (r * r)) * ((x - cx) * (x - cx)) / r + a / r),
     Fin (- (d / r + a / (r * r)) * (x - cx) * (y - cy) / r),
     Fin (- (d / r + a / (r * r)) * (x - cx) * (y - cy) / r),
     Fin (- (d / r + a / (r * r)) * ((y - cy) * (y - cy)) / r + a / r)).
Proof.
  intros Hs r E a d. unfold Gaussian.hessian. cbv zeta.
  rewrite radius_Fin, clamp_lt_Rmax. fold r.
  pose proof (Rmax_floor_pos (sqrt ((x - cx) * (x - cx) + (y - cy) * (y - cy)))) as Hr.
  fold r in Hr.
  rewrite alpha_abs_Fin, d_alpha_dr_Fin by assumption. fold E. fold a.
  rewrite fneg_Fin. fold d.
  rewrite !fsub_Fin, !fsquare_Fin.
  assert (Hrr : r * r <> 0) by (apply Rgt_not_eq, Rmult_lt_0_compat; assumption).
  rewrite !(fdiv_Fin _ r) by lra. rewrite !(fdiv_Fin _ (r * r)) by assumption.
  rewrite !fadd_Fin, !fneg_Fin, !fmul_Fin.
  rewrite !(fdiv_Fin _ r) by lra. rewrite !fadd_Fin. reflexivity.
Qed.

(** X13: outside the floor the trace of the Hessian is twice a Gaussian
    convergence: [f_xx + f_yy = amp / (pi sigma^2) * exp (- r^2 / (2 sigma^2))],
    with [r^2 = (x - center_x)^2 + (y - center_y)^2]. *)
Theorem Gaussian_hessian_trace (x y amp sigma center_x center_y : R) :
  0 < sigma ->
  1 / 100000 <= sqrt ((x - center_x) ^ 2 + (y - center_y) ^ 2) ->
  exists f_xx f_xy f_yy,
    Gaussian.hessian (Fin x) (Fin y) (Fin amp) (Fin sigma) (Fin center_x) (Fin center_y)
    = (Fin f_xx, Fin f_xy, Fin f_xy, Fin f_yy)
    /\ f_xx + f_yy
       = amp / (PI * sigma ^ 2)
         * exp (- (((x - center_x) ^ 2 + (y - center_y) ^ 2) / (2 * sigma ^ 2))).
Proof.
  intros Hs.
  replace ((x - center_x) ^ 2 + (y - center_y) ^ 2)
    with ((x - center_x) * (x - center_x) + (y - center_y) * (y - center_y)) by ring.
  intros Hr. rewrite Gaussian_hessian_Fin by assumption. cbv zeta.
  rewrite Rmax_left by lra.
  set (s := (x - center_x) * (x - center_x) + (y - center_y) * (y - center_y)) in *.
  assert (Hs0 : 0 <= s).
  { pose proof (Rle_0_sqr (x - center_x)) as Hx. pose proof (Rle_0_sqr (y - center_y)) as Hy.
    unfold Rsqr in Hx, Hy. unfold s. lra. }
  assert (Hrr : sqrt s * sqrt s = s) by now apply sqrt_sqrt.
  set (r := sqrt s) in *. assert (0 < r) by lra.
  do 3 eexists. split; [reflexivity |].
  replace (s / (2 * sigma ^ 2)) with (r * r / (2 * sigma * sigma))
    by (rewrite Hrr; field; lra).
  set (E := exp (- (r * r / (2 * sigma * sigma)))).
  set (a := amp * (1 - E) / PI / r).
  set (d := - (amp / PI * (-1 + (1 + r * r / (sigma * sigma)) * E) / (r * r))).
  pose proof PI_RGT_0 as Hpi.
  transitivity (- (d / r + a / (r * r)) * s / r + 2 * a / r).
  - unfold s. field. lra.
  - rewrite <- Hrr. unfold d, a. field. repeat split; lra.
Qed.

Lemma Gaussian_hessian_trace_witness :
  exists f_xx f_xy f_yy,
    Gaussian.hessian (Fin 1) (Fin 0) (Fin 1) (Fin 1) (Fin 0) (Fin 0)
    = (Fin f_xx, Fin f_xy, Fin f_xy, Fin f_yy)
    /\ f_xx + f_yy
       = 1 / (PI * 1 ^ 2) * exp (- (((1 - 0) ^ 2 + (0 - 0) ^ 2) / (2 * 1 ^ 2))).
Proof.
  apply Gaussian_hessian_trace; [lra |].
  replace ((1 - 0) ^ 2 + (0 - 0) ^ 2) with 1 by ring. rewrite sqrt_1. lra.
Defined.

(** X14: at the lens center the Hessian is isotropic: the mixed partial
    is 0 and [f_xx = f_yy]. *)
Theorem Gaussian_hessian_center_isotropic (amp sigma center_x center_y : R) :
  0 < sigma ->
  exists h,
    Gaussian.hessian (Fin center_x) (Fin center_y) (Fin amp) (Fin sigma)
                     (Fin center_x) (Fin center_y)
    = (Fin h, Fin 0, Fin 0, Fin h).
Proof.
  intros Hs. rewrite Gaussian_hessian_Fin by assumption. cbv zeta.
  set (r := Rmax _ _).
  pose proof (Rmax_floor_pos
                (sqrt ((center_x - center_x) * (center_x - center_x)
                       + (center_y - center_y) * (center_y - center_y)))) as Hr.
  fold r in Hr.
  set (E := exp (- (r * r / (2 * sigma * sigma)))).
  set (a := amp * (1 - E) / PI / r).
  set (d := - (amp / PI * (-1 + (1 + r * r / (sigma * sigma)) * E) / (r * r))).
  exists (a / r).
  repeat (f_equal; try (field; lra)).
Qed.

Lemma Gaussian_hessian_center_isotropic_witness :
  exists h,
    Gaussian.hessian (Fin 0) (Fin 0) (Fin 1) (Fin 1) (Fin 0) (Fin 0)
    = (Fin h, Fin 0, Fin 0, Fin h).
Proof. apply Gaussian_hessian_center_isotropic. lra. Defined.

(** ** gaussian.py: the potential *)

(** At radius 0 the loop body yields NaN whatever the scale [c] is,
    finite, infinite or NaN. *)
Lemma trapezoidal_sum_zero_radius_any (c : fval) (i : Z) (val : fval) :
  Gaussian.trapezoidal_sum (Fin 0) c i val = NaN.
Proof.
  destruct c as [c | | |].
  - apply trapezoidal_sum_zero_radius.
  - unfold Gaussian.trapezoidal_sum, lit. rewrite fdiv_Fin by lra. rewrite !fmul_Fin.
    rewrite (fsquare_Fin (0 / 200 * IZR (i + 1))). cbn [fneg].
    assert (Z0 : (NInf * Fin (0 / 200 * IZR (i + 1) * (0 / 200 * IZR (i + 1))))%fl = NaN).
    { unfold fmul. apply by_sign_zero. field. }
    rewrite Z0. cbn [fexp fsub fneg fadd fdiv]. rewrite fadd_NaN_r. cbn [fdiv fmul].
    apply fadd_NaN_r.
  - unfold Gaussian.trapezoidal_sum, lit. rewrite fdiv_Fin by lra. rewrite !fmul_Fin.
    rewrite (fsquare_Fin (0 / 200 * IZR (i + 1))). cbn [fneg].
    assert (Z0 : (PInf * Fin (0 / 200 * IZR (i + 1) * (0 / 200 * IZR (i + 1))))%fl = NaN).
    { unfold fmul. apply by_sign_zero. field. }
    rewrite Z0. cbn [fexp fsub fneg fadd fdiv]. rewrite fadd_NaN_r. cbn [fdiv fmul].
    apply fadd_NaN_r.
  - unfold Gaussian.trapezoidal_sum, lit. rewrite fdiv_Fin by lra. rewrite !fmul_Fin.
    cbn [fneg fmul fexp fsub fadd fdiv]. rewrite fadd_NaN_r. cbn [fdiv fmul].
    apply fadd_NaN_r.
Qed.

Lemma num_integral_zero_radius_any (c : fval) :
  Gaussian._num_integral (Fin 0) c = NaN.
Proof.
  unfold Gaussian._num_integral, fori_loop.
  change (Z.to_nat (200 - 0)) with (S 199).
  apply fori_steps_const. intros i v. apply trapezoidal_sum_zero_radius_any.
Qed.

(** X15: the potential at the lens center is NaN, for every amplitude
    and every sigma (finite or not): the radius is 0 there and the
    quadrature contributes NaN. *)
Theorem Gaussian_function_center_is_nan (amp sigma : fval) (center_x center_y : R) :
  Gaussian.function (Fin center_x) (Fin center_y) amp sigma (Fin center_x) (Fin center_y)
  = NaN.
Proof.
  unfold Gaussian.function. cbv zeta. rewrite radius_Fin.
  replace ((center_x - center_x) * (center_x - center_x)
           + (center_y - center_y) * (center_y - center_y)) with 0 by ring.
  rewrite sqrt_0, num_integral_zero_radius_any. reflexivity.
Qed.

Lemma Gaussian_function_Fin (x y amp sigma cx cy : R) :
  0 < sigma -> x <> cx \/ y <> cy ->
  Gaussian.function (Fin x) (Fin y) (Fin amp) (Fin sigma) (Fin cx) (Fin cy)
  = Fin (amp / PI
         * trapezoid_spec (sqrt ((x - cx) * (x - cx) + (y - cy) * (y - cy)))
                          (1 / (2 * sigma * sigma))).
Proof.
  intros Hs Hxy. pose proof (offset_radius_positive x y cx cy Hxy) as Hr.
  unfold Gaussian.function. cbv zeta. rewrite radius_Fin.
  rewrite amp2d_to_3d_Fin by assumption.
  assert (Hc : (lit 1 / (lit 2 * Fin sigma * Fin sigma))%fl = Fin (1 / (2 * sigma * sigma))).
  { fin_eval. reflexivity. }
  rewrite Hc. rewrite num_integral_positive_radius by assumption.
  fin_eval. f_equal.
  pose proof sqrt_PI_sqr as Ha. pose proof (sqrt_2sigma_sqr sigma) as Hb.
  pose proof sqrt_PI_pos as Ha0. pose proof (sqrt_2sigma_pos sigma Hs) as Hb0.
  set (T := trapezoid_spec _ _).
  set (a := sqrt PI) in *. set (b := sqrt (sigma * sigma * 2)) in *.
  clearbody a b T. rewrite <- Hb, <- Ha. field. split; lra.
Qed.

(** X16: off the center, for sigma > 0, the potential is [amp / pi] times
    the composite trapezoidal sum at the radius of the point and the
    scale [c = 1 / (2 sigma^2)]. *)
Theorem Gaussian_function_off_center (x y amp sigma center_x center_y : R) :
  0 < sigma -> x <> center_x \/ y <> center_y ->
  Gaussian.function (Fin x) (Fin y) (Fin amp) (Fin sigma) (Fin center_x) (Fin center_y)
  = Fin (amp / PI
         * trapezoid_spec (sqrt ((x - center_x) ^ 2 + (y - center_y) ^ 2))
                          (1 / (2 * sigma ^ 2))).
Proof.
  intros Hs Hxy. rewrite Gaussian_function_Fin by assumption.
  replace ((x - center_x) ^ 2 + (y - center_y) ^ 2)
    with ((x - center_x) * (x - center_x) + (y - center_y) * (y - center_y)) by ring.
  replace (2 * sigma ^ 2) with (2 * sigma * sigma) by ring.
  reflexivity.
Qed.

Lemma Gaussian_function_off_center_witness :
  Gaussian.function (Fin 1) (Fin 0) (Fin 1) (Fin 1) (Fin 0) (Fin 0)
  = Fin (1 / PI * trapezoid_spec (sqrt ((1 - 0) ^ 2 + (0 - 0) ^ 2)) (1 / (2 * 1 ^ 2))).
Proof. apply Gaussian_function_off_center; [lra | left; lra]. Defined.

Lemma integrand_nonneg (c x : R) : 0 < c -> 0 <= x -> 0 <= integrand c x.
Proof.
  intros Hc Hx. unfold integrand. destruct (Req_dec_T x 0) as [E | N]; [lra |].
  assert (0 < x) by lra.
  assert (T : 0 <= c * x ^ 2) by (apply Rmult_le_pos; [lra | apply pow2_ge_0]).
  pose proof (exp_neg_le_1 _ T).
  apply Rmult_le_pos; [lra | left; now apply Rinv_0_lt_compat].
Qed.

Lemma trapezoid_term_nonneg (c r : R) (i : nat) :
  0 < c -> 0 < r -> 0 <= trapezoid_term r c i.
Proof.
  intros Hc Hr. unfold trapezoid_term.
  assert (A : 0 <= INR i * r / 200).
  { apply Rmult_le_pos; [apply Rmult_le_pos; [apply pos_INR | lra] | lra]. }
  assert (B : 0 <= INR (i + 1) * r / 200).
  { apply Rmult_le_pos; [apply Rmult_le_pos; [apply pos_INR | lra] | lra]. }
  pose proof (integrand_nonneg c _ Hc A). pose proof (integrand_nonneg c _ Hc B).
  apply Rmult_le_pos; [| lra]. apply Rmult_le_pos; lra.
Qed.

Lemma fold_sum_nonneg (t : nat -> R) (l : list nat) :
  (forall i, 0 <= t i) -> forall a, a <= fold_left (fun acc i => acc + t i) l a.
Proof.
  intros Ht. induction l as [| i l IH]; intros a; cbn [fold_left].
  - lra.
  - pose proof (Ht i). pose proof (IH (a + t i)). lra.
Qed.

Lemma trapezoid_spec_nonneg (c r : R) : 0 < c -> 0 < r -> 0 <= trapezoid_spec r c.
Proof.
  intros Hc Hr. unfold trapezoid_spec. apply fold_sum_nonneg.
  intros i. now apply trapezoid_term_nonneg.
Qed.


(** ** The quadrature at a negative radius and on a batch *)

Lemma trapezoidal_sum_nonzero (r c acc : R) (k : nat) :
  r <> 0 ->
  Gaussian.trapezoidal_sum (Fin r) (Fin c) (Z.of_nat k) (Fin acc)
  = Fin (acc + trapezoid_term r c k).
Proof.
  intros Hr. unfold Gaussian.trapezoidal_sum.
  assert (Hdx : (Fin r / lit 200)%fl = Fin (r / 200)).
  { unfold lit. apply fdiv_Fin. lra. }
  rewrite Hdx.
  assert (Hl : (Fin (r / 200) * lit (Z.of_nat k))%fl = Fin (INR k * r / 200)).
  { unfold lit. rewrite fmul_Fin, <- INR_IZR_INZ. f_equal. field. }
  assert (Hr' : (Fin (r / 200) * lit (Z.of_nat k + 1))%fl = Fin (INR (k + 1) * r / 200)).
  { unfold lit. rewrite fmul_Fin. replace (Z.of_nat k + 1)%Z with (Z.of_nat (k + 1)) by lia.
    rewrite <- INR_IZR_INZ. f_equal. field. }
  rewrite Hl, Hr'. rewrite guarded_quotient_Fin.
  rewrite quotient_Fin.
  - unfold lit. rewrite fadd_Fin. rewrite fdiv_Fin by lra. reflexivity.
  - assert (0 < INR (k + 1)) by (apply lt_0_INR; lia).
    unfold Rdiv. apply Rmult_integral_contrapositive_currified; [| lra].
    apply Rmult_integral_contrapositive_currified; [lra | assumption].
Qed.

Lemma fori_steps_nonzero (r c : R) :
  r <> 0 ->
  forall (n k : nat) (acc : R),
    fori_steps n (Z.of_nat k) (Gaussian.trapezoidal_sum (Fin r) (Fin c)) (Fin acc)
    = Fin (fold_left (fun a i => a + trapezoid_term r c i) (seq k n) acc).
Proof.
  intros Hr n. induction n as [| n IH]; intros k acc.
  - reflexivity.
  - cbn [fori_steps seq fold_left].
    rewrite trapezoidal_sum_nonzero by assumption.
    replace (Z.of_nat k + 1)%Z with (Z.of_nat (S k)) by lia.
    apply IH.
Qed.

Lemma num_integral_nonzero_radius (r c : R) :
  r <> 0 -> Gaussian._num_integral (Fin r) (Fin c) = Fin (trapezoid_spec r c).
Proof.
  intros Hr. unfold Gaussian._num_integral, fori_loop, trapezoid_spec.
  change (Z.to_nat (200 - 0)) with 200%nat.
  change 0%Z with (Z.of_nat 0). unfold lit.
  change (IZR (Z.of_nat 0)) with 0.
  now apply fori_steps_nonzero.
Qed.

Lemma integrand_odd (c x : R) : integrand c (- x) = - integrand c x.
Proof.
  unfold integrand.
  destruct (Req_dec_T (- x) 0) as [E | N]; destruct (Req_dec_T x 0) as [E' | N']; try lra.
  replace ((- x) ^ 2) with (x ^ 2) by ring. field. assumption.
Qed.

Lemma trapezoid_term_even (c r : R) (i : nat) :
  trapezoid_term (- r) c i = trapezoid_term r c i.
Proof.
  unfold trapezoid_term.
  replace (INR i * - r / 200) with (- (INR i * r / 200)) by field.
  replace (INR (i + 1) * - r / 200) with (- (INR (i + 1) * r / 200)) by field.
  rewrite !integrand_odd. field.
Qed.

Lemma fold_sum_ext (t1 t2 : nat -> R) (l : list nat) :
  (forall i, t1 i = t2 i) ->
  forall a, fold_left (fun acc i => acc + t1 i) l a = fold_left (fun acc i => acc + t2 i) l a.
Proof.
  intros Ht. induction l as [| i l IH]; intros a; cbn [fold_left].
  - reflexivity.
  - rewrite Ht. apply IH.
Qed.

(** X18: a negative radius is not rejected: the quadrature at [- r]
    returns what it returns at [r], for every r > 0 and finite c. *)
Theorem num_integral_even_in_radius (r c : R) :
  0 < r ->
  Gaussian._num_integral (Fin (- r)) (Fin c) = Gaussian._num_integral (Fin r) (Fin c).
Proof.
  intros Hr. rewrite !num_integral_nonzero_radius by lra. f_equal.
  unfold trapezoid_spec. apply fold_sum_ext. intros i. apply trapezoid_term_even.
Qed.

Lemma num_integral_even_in_radius_witness :
  Gaussian._num_integral (Fin (- 1)) (Fin 1) = Gaussian._num_integral (Fin 1) (Fin 1).
Proof. apply num_integral_even_in_radius. lra. Defined.

(** X19: on a batch of finite radii every output entry depends on its
    own radius only: it is NaN where the radius is 0 and the trapezoidal
    sum of that radius elsewhere; a zero radius does not spoil the other
    entries. *)
Theorem num_integral_batch_entries (sh : list nat) (dt : dtype) (rs : list R) (c : R) :
  data (GaussianArray._num_integral {| shape := sh; dtype_of := dt; data := map Fin rs |}
                                    (Fin c))
  = map (fun r => if Req_dec_T r 0 then NaN else Fin (trapezoid_spec r c)) rs.
Proof.
  rewrite num_integral_elementwise. cbn [data]. rewrite map_map.
  apply map_ext. intros r. destruct (Req_dec_T r 0) as [E | N].
  - subst r. apply num_integral_zero_radius.
  - now apply num_integral_nonzero_radius.
Qed.

(** ** sis.py: masses against densities *)

Lemma derivable_pt_lim_linear (k x : R) : derivable_pt_lim (fun r => k * r) x k.
Proof.
  apply (derivable_pt_lim_ext (mult_real_fct k id)).
  - intros z. reflexivity.
  - replace k with (k * 1) at 2 by ring.
    apply derivable_pt_lim_scal, derivable_pt_lim_id.
Qed.

(** X20: the enclosed masses are the integrals of the densities.  At
    r > 0 the derivative of [mass_3d] in r is the shell [4 pi r^2] times
    [density], and the derivative of [mass_2d] is the ring [2 pi r] times
    [density_2d] at distance r from the center. *)
Theorem SIS_masses_integrate_densities (r rho0 : R) :
  0 < r ->
  derivable_pt_lim (fun s => real_of_result (SIS.mass_3d (Fin s) (Fin rho0))) r
    (4 * PI * r ^ 2 * real_of_result (SIS.density (Fin r) (Fin rho0)))
  /\ derivable_pt_lim (fun s => real_of_result (SIS.mass_2d (Fin s) (Fin rho0))) r
       (2 * PI * r
        * real_of_result (SIS.density_2d (Fin r) (Fin 0) (Fin rho0) (Fin 0) (Fin 0))).
Proof.
  intros Hr. pose proof PI_RGT_0 as Hpi. split.
  - rewrite SIS_density_Fin by lra. cbn [real_of_result real_of].
    apply (derivable_pt_lim_ext (fun s => 4 * PI * rho0 * s)).
    + intros z. now rewrite SIS_mass_3d_Fin.
    + replace (4 * PI * r ^ 2 * (rho0 / (r * r))) with (4 * PI * rho0) by (field; lra).
      apply derivable_pt_lim_linear.
  - rewrite SIS_density_2d_off_center by (left; lra). cbn [real_of_result real_of].
    replace ((r - 0) * (r - 0) + (0 - 0) * (0 - 0)) with (r * r) by ring.
    rewrite sqrt_square by lra.
    apply (derivable_pt_lim_ext (fun s => 2 * rho0 * (PI * PI) * s)).
    + intros z. now rewrite SIS_mass_2d_Fin.
    + replace (2 * PI * r * (PI * rho0 / r)) with (2 * rho0 * (PI * PI)) by (field; lra).
      apply derivable_pt_lim_linear.
Qed.

Lemma SIS_masses_integrate_densities_witness :
  derivable_pt_lim (fun s => real_of_result (SIS.mass_3d (Fin s) (Fin 1))) 1
    (4 * PI * 1 ^ 2 * real_of_result (SIS.density (Fin 1) (Fin 1)))
  /\ derivable_pt_lim (fun s => real_of_result (SIS.mass_2d (Fin s) (Fin 1))) 1
       (2 * PI * 1
        * real_of_result (SIS.density_2d (Fin 1) (Fin 0) (Fin 1) (Fin 0) (Fin 0))).
Proof. apply SIS_masses_integrate_densities. lra. Defined.

(** ** test_jaxopt_minimizer.py: where the log-likelihoods peak *)

Section SumOfPenalties.

Variable g : R -> R.
Variable gf : fval -> fval.
Hypothesis gf_Fin : forall x, gf (Fin x) = Fin (g x).
Hypothesis g_nonneg : forall x, 0 <= g x.

Lemma penalties_sum_Fin (xs : list R) (a : R) :
  fold_left fadd (map gf (map Fin xs)) (Fin a)
  = Fin (fold_left (fun acc x => acc + g x) xs a).
Proof.
  revert a. induction xs as [| x xs IH]; intros a; cbn [map fold_left].
  - reflexivity.
  - rewrite gf_Fin, fadd_Fin. apply IH.
Qed.

Lemma penalties_sum_ge (xs : list R) (a : R) :
  a <= fold_left (fun acc x => acc + g x) xs a.
Proof.
  revert a. induction xs as [| x xs IH]; intros a; cbn [fold_left].
  - lra.
  - pose proof (g_nonneg x). pose proof (IH (a + g x)). lra.
Qed.

Lemma penalties_sum_zero (xs : list R) (a : R) :
  fold_left (fun acc x => acc + g x) xs a = a <-> Forall (fun x => g x = 0) xs.
Proof.
  revert a. induction xs as [| x xs IH]; intros a; cbn [fold_left].
  - split; [constructor | reflexivity].
  - pose proof (g_nonneg x) as Hx. pose proof (penalties_sum_ge xs (a + g x)) as Hge.
    split.
    + intros H. assert (g x = 0) by lra. constructor; [assumption |].
      apply (IH (a + g x)). lra.
    + intros H. inversion H as [| ? ? H0 Hrest]; subst.
      apply (IH (a + g x)) in Hrest. lra.
Qed.

End SumOfPenalties.

(** X21: on an array of finite entries [_logL] is at most 0, and it is 0
    exactly when every entry is 0.6 (as the real 3/5): the likelihood
    peaks there and nowhere else. *)
Theorem logL_peak (xs : list R) :
  exists v,
    TestJaxoptMinimizer._logL (map Fin xs) = Fin v
    /\ v <= 0
    /\ (v = 0 <-> Forall (fun x => x = 3 / 5) xs).
Proof.
  unfold TestJaxoptMinimizer._logL, TestJaxoptMinimizer.np_sum, lit.
  set (g := fun x : R => (x - 3 / 5) * (x - 3 / 5)).
  assert (Hg : forall x, 0 <= g x).
  { intros x. unfold g. pose proof (Rle_0_sqr (x - 3 / 5)) as H. unfold Rsqr in H. lra. }
  rewrite (penalties_sum_Fin g (fun xi => fsquare (xi - Fin (3 / 5))%fl)) by reflexivity.
  rewrite fneg_Fin. eexists. split; [reflexivity |].
  pose proof (penalties_sum_ge g Hg xs 0) as Hge.
  split; [lra |]. split.
  - intros H. assert (E : fold_left (fun acc x => acc + g x) xs 0 = 0) by lra.
    apply (penalties_sum_zero g Hg) in E. revert E. apply Forall_impl.
    intros x Hx. unfold g in Hx. apply Rmult_integral in Hx. lra.
  - intros H. assert (E : Forall (fun x => g x = 0) xs).
    { revert H. apply Forall_impl. intros x ->. unfold g. ring. }
    apply (penalties_sum_zero g Hg xs 0) in E. lra.
Qed.

(** X22: on an array of finite entries [_logL2] is at most 0, and it is
    0 exactly when every entry is 0.25. *)
Theorem logL2_peak (xs : list R) :
  exists v,
    TestJaxoptMinimizer._logL2 (map Fin xs) = Fin v
    /\ v <= 0
    /\ (v = 0 <-> Forall (fun x => x = 1 / 4) xs).
Proof.
  unfold TestJaxoptMinimizer._logL2, TestJaxoptMinimizer.np_sum, lit.
  set (g := fun x : R => (4 * x - 1) * (4 * x - 1) * ((4 * x - 1) * (4 * x - 1))).
  assert (Hg : forall x, 0 <= g x).
  { intros x. unfold g.
    pose proof (Rle_0_sqr ((4 * x - 1) * (4 * x - 1))) as H. unfold Rsqr in H. lra. }
  rewrite (penalties_sum_Fin g (fun xi => fsquare (fsquare (Fin 4 * xi - Fin 1))%fl))
    by reflexivity.
  rewrite fneg_Fin. eexists. split; [reflexivity |].
  pose proof (penalties_sum_ge g Hg xs 0) as Hge.
  split; [lra |]. split.
  - intros H. assert (E : fold_left (fun acc x => acc + g x) xs 0 = 0) by lra.
    apply (penalties_sum_zero g Hg) in E. revert E. apply Forall_impl.
    intros x Hx. unfold g in Hx.
    apply Rmult_integral in Hx. destruct Hx as [Hx | Hx];
      apply Rmult_integral in Hx; lra.
  - intros H. assert (E : Forall (fun x => g x = 0) xs).
    { revert H. apply Forall_impl. intros x ->. unfold g. field. }
    apply (penalties_sum_zero g Hg xs 0) in E. lra.
Qed.

(** ** gaussian.py: the Hessian is the Jacobian of the deflection *)

Lemma deflection_factor_derivative (amp sigma s : R) :
  0 < sigma -> 0 < s ->
  derivable_pt_lim (deflection_factor amp sigma) s
    (amp / PI
     * (exp (- (s / (2 * sigma * sigma))) / (2 * sigma * sigma) * s
        - (1 - exp (- (s / (2 * sigma * sigma)))))
     / (s * s)).
Proof.
  intros Hs H0. pose proof PI_RGT_0 as Hpi.
  set (k := 1 / (2 * sigma * sigma)).
  set (inner := mult_real_fct (- k) id).
  assert (Dinner : derivable_pt_lim inner s (- k * 1)).
  { apply derivable_pt_lim_scal, derivable_pt_lim_id. }
  assert (Dexp : derivable_pt_lim (comp exp inner) s (exp (inner s) * (- k * 1))).
  { apply derivable_pt_lim_comp; [exact Dinner | apply derivable_pt_lim_exp]. }
  set (u := (fct_cte (amp / PI) - mult_real_fct (amp / PI) (comp exp inner))%F).
  assert (Du : derivable_pt_lim u s (0 - amp / PI * (exp (inner s) * (- k * 1)))).
  { apply derivable_pt_lim_minus; [apply derivable_pt_lim_const |].
    apply derivable_pt_lim_scal. exact Dexp. }
  assert (Dg : derivable_pt_lim (u / id)%F s
                 (((0 - amp / PI * (exp (inner s) * (- k * 1))) * id s - 1 * u s)
                  / (id s)²)).
  { apply derivable_pt_lim_div; [exact Du | apply derivable_pt_lim_id |].
    unfold id. lra. }
  assert (Einner : forall r, inner r = - (r / (2 * sigma * sigma))).
  { intros r. unfold inner, mult_real_fct, id, k. field. lra. }
  apply (derivable_pt_lim_locally_ext (u / id)%F _ s (s / 2) (s + 1)); [lra | |].
  - intros z Hz. unfold deflection_factor, div_fct, u, minus_fct, fct_cte, mult_real_fct,
      comp, id.
    rewrite Einner. field. split; lra.
  - replace (amp / PI
             * (exp (- (s / (2 * sigma * sigma))) / (2 * sigma * sigma) * s
                - (1 - exp (- (s / (2 * sigma * sigma)))))
             / (s * s))
      with (((0 - amp / PI * (exp (inner s) * (- k * 1))) * id s - 1 * u s) / (id s)²).
    + exact Dg.
    + unfold u, minus_fct, fct_cte, mult_real_fct, comp, id, Rsqr. rewrite Einner.
      unfold k. field. repeat split; lra.
Qed.

(** The squared distance [(t - c)^2 + v^2] as a function of [t]. *)
Lemma squared_distance_derivative (c v t : R) :
  derivable_pt_lim (fun z => (z - c) * (z - c) + v * v) t (2 * (t - c)).
Proof.
  apply (derivable_pt_lim_ext ((id - fct_cte c) * (id - fct_cte c) + fct_cte (v * v))%F).
  - intros z. reflexivity.
  - replace (2 * (t - c)) with (((1 - 0) * (t - c) + (t - c) * (1 - 0)) + 0) by ring.
    apply derivable_pt_lim_plus; [| apply derivable_pt_lim_const].
    apply (derivable_pt_lim_mult (id - fct_cte c)%F (id - fct_cte c)%F t (1 - 0) (1 - 0));
      apply derivable_pt_lim_minus;
      first [apply derivable_pt_lim_id | apply derivable_pt_lim_const].
Qed.

(** Along a line the two components of the closed form of the
    deflection: [B (s t) * (t - c)] and [B (s t) * v]. *)
Lemma along_component_derivative (amp sigma c v t : R) :
  0 < sigma -> 0 < (t - c) * (t - c) + v * v ->
  let s := (t - c) * (t - c) + v * v in
  let B' := amp / PI
            * (exp (- (s / (2 * sigma * sigma))) / (2 * sigma * sigma) * s
               - (1 - exp (- (s / (2 * sigma * sigma)))))
            / (s * s) in
  derivable_pt_lim
    (fun z => deflection_factor amp sigma ((z - c) * (z - c) + v * v) * (z - c)) t
    (B' * (2 * (t - c)) * (t - c) + deflection_factor amp sigma s)
  /\ derivable_pt_lim
       (fun z => deflection_factor amp sigma ((z - c) * (z - c) + v * v) * v) t
       (B' * (2 * (t - c)) * v).
Proof.
  intros Hs H0 s B'.
  set (S := fun z : R => (z - c) * (z - c) + v * v).
  assert (DB : derivable_pt_lim (comp (deflection_factor amp sigma) S) t
                 (B' * (2 * (t - c)))).
  { apply derivable_pt_lim_comp; [apply squared_distance_derivative |].
    now apply deflection_factor_derivative. }
  split.
  - apply (derivable_pt_lim_ext
             (comp (deflection_factor amp sigma) S * (id - fct_cte c))%F).
    + intros z. reflexivity.
    + replace (B' * (2 * (t - c)) * (t - c) + deflection_factor amp sigma s)
        with (B' * (2 * (t - c)) * (id - fct_cte c)%F t
              + comp (deflection_factor amp sigma) S t * (1 - 0))
        by (unfold comp, minus_fct, id, fct_cte, s, S; ring).
      apply derivable_pt_lim_mult; [exact DB |].
      apply derivable_pt_lim_minus;
        [apply derivable_pt_lim_id | apply derivable_pt_lim_const].
  - apply (derivable_pt_lim_ext (mult_real_fct v (comp (deflection_factor amp sigma) S))).
    + intros z. unfold mult_real_fct, comp, S. ring.
    + replace (B' * (2 * (t - c)) * v) with (v * (B' * (2 * (t - c)))) by ring.
      now apply derivable_pt_lim_scal.
Qed.

Lemma sum_sqr_nonneg (a b : R) : 0 <= a * a + b * b.
Proof.
  pose proof (Rle_0_sqr a) as Ha. pose proof (Rle_0_sqr b) as Hb.
  unfold Rsqr in Ha, Hb. lra.
Qed.

(** Moving one coordinate by less than the margin keeps the radius above
    the floor. *)
Lemma radius_stays_above (u v h d : R) :
  d < sqrt (u * u + v * v) ->
  Rabs h < sqrt (u * u + v * v) - d ->
  d < sqrt ((u + h) * (u + h) + v * v).
Proof.
  intros Hd Hh.
  set (R0 := sqrt (u * u + v * v)) in *. set (R1 := sqrt ((u + h) * (u + h) + v * v)).
  assert (S0 : 0 <= u * u + v * v) by apply sum_sqr_nonneg.
  assert (S1 : 0 <= (u + h) * (u + h) + v * v) by apply sum_sqr_nonneg.
  assert (P0 : 0 <= R0) by apply sqrt_pos. assert (P1 : 0 <= R1) by apply sqrt_pos.
  assert (Q0 : R0 * R0 = u * u + v * v) by now apply sqrt_sqrt.
  assert (Q1 : R1 * R1 = (u + h) * (u + h) + v * v) by now apply sqrt_sqrt.
  assert (A0 : 0 <= Rabs h) by apply Rabs_pos.
  assert (A2 : Rabs h * Rabs h = h * h).
  { unfold Rabs. destruct (Rcase_abs h); ring. }
  assert (B1 : u + h <= R1) by nra.
  assert (B2 : - (u + h) <= R1) by nra.
  assert (C : - ((u + h) * h) <= R1 * Rabs h).
  { unfold Rabs in *. destruct (Rcase_abs h); nra. }
  assert (T : R0 <= R1 + Rabs h).
  { apply Rsqr_incr_0_var; [unfold Rsqr; nra | lra]. }
  lra.
Qed.

(** Where the radius is above the floor the deflection is the closed
    form. *)
Lemma Gaussian_derivatives_unclamped (x y amp sigma cx cy : R) :
  0 < sigma ->
  1 / 100000 < sqrt ((x - cx) * (x - cx) + (y - cy) * (y - cy)) ->
  Gaussian.derivatives (Fin x) (Fin y) (Fin amp) (Fin sigma) (Fin cx) (Fin cy)
  = (Fin (deflection_factor amp sigma ((x - cx) * (x - cx) + (y - cy) * (y - cy)) * (x - cx)),
     Fin (deflection_factor amp sigma ((x - cx) * (x - cx) + (y - cy) * (y - cy)) * (y - cy))).
Proof.
  intros Hs Hr. rewrite Gaussian_derivatives_Fin by assumption. cbv zeta.
  rewrite Rmax_left by lra.
  set (s := (x - cx) * (x - cx) + (y - cy) * (y - cy)) in *.
  assert (Hs0 : 0 <= s).
  { pose proof (Rle_0_sqr (x - cx)) as Hx. pose proof (Rle_0_sqr (y - cy)) as Hy.
    unfold Rsqr in Hx, Hy. unfold s. lra. }
  assert (Hrr : sqrt s * sqrt s = s) by now apply sqrt_sqrt.
  set (r := sqrt s) in *. assert (0 < r) by lra.
  unfold deflection_factor. rewrite <- Hrr. pose proof PI_RGT_0.
  f_equal; f_equal; field; split; lra.
Qed.

Lemma unclamped_near_x (x y cx cy z : R) :
  let r0 := sqrt ((x - cx) * (x - cx) + (y - cy) * (y - cy)) in
  1 / 100000 < r0 ->
  x - (r0 - 1 / 100000) < z < x + (r0 - 1 / 100000) ->
  1 / 100000 < sqrt ((z - cx) * (z - cx) + (y - cy) * (y - cy)).
Proof.
  intros r0 H0 Hz.
  replace (z - cx) with (x - cx + (z - x)) by ring.
  apply radius_stays_above; fold r0; [assumption |].
  unfold Rabs. destruct (Rcase_abs (z - x)); lra.
Qed.

Lemma unclamped_near_y (x y cx cy z : R) :
  let r0 := sqrt ((x - cx) * (x - cx) + (y - cy) * (y - cy)) in
  1 / 100000 < r0 ->
  y - (r0 - 1 / 100000) < z < y + (r0 - 1 / 100000) ->
  1 / 100000 < sqrt ((x - cx) * (x - cx) + (z - cy) * (z - cy)).
Proof.
  intros r0 H0 Hz.
  replace ((x - cx) * (x - cx) + (z - cy) * (z - cy))
    with ((y - cy + (z - y)) * (y - cy + (z - y)) + (x - cx) * (x - cx)) by ring.
  apply radius_stays_above.
  - replace ((y - cy) * (y - cy) + (x - cx) * (x - cx))
      with ((x - cx) * (x - cx) + (y - cy) * (y - cy)) by ring.
    assumption.
  - replace ((y - cy) * (y - cy) + (x - cx) * (x - cx))
      with ((x - cx) * (x - cx) + (y - cy) * (y - cy)) by ring.
    fold r0. unfold Rabs. destruct (Rcase_abs (z - y)); lra.
Qed.

(** The Hessian outside the floor, in terms of [deflection_factor] and
    its derivative. *)
Lemma Gaussian_hessian_unclamped (x y amp sigma cx cy : R) :
  0 < sigma ->
  1 / 100000 < sqrt ((x - cx) * (x - cx) + (y - cy) * (y - cy)) ->
  let s := (x - cx) * (x - cx) + (y - cy) * (y - cy) in
  let B' := amp / PI
            * (exp (- (s / (2 * sigma * sigma))) / (2 * sigma * sigma) * s
               - (1 - exp (- (s / (2 * sigma * sigma)))))
            / (s * s) in
  Gaussian.hessian (Fin x) (Fin y) (Fin amp) (Fin sigma) (Fin cx) (Fin cy)
  = (Fin (B' * (2 * (x - cx)) * (x - cx) + deflection_factor amp sigma s),
     Fin (B' * (2 * (x - cx)) * (y - cy)),
     Fin (B' * (2 * (x - cx)) * (y - cy)),
     Fin (B' * (2 * (y - cy)) * (y - cy) + deflection_factor amp sigma s)).
Proof.
  intros Hs Hr s B'. rewrite Gaussian_hessian_Fin by assumption. cbv zeta.
  rewrite Rmax_left by lra. fold s.
  assert (Hs0 : 0 <= s) by apply sum_sqr_nonneg.
  assert (Hrr : sqrt s * sqrt s = s) by now apply sqrt_sqrt.
  fold s in Hr. unfold B', deflection_factor.
  set (r := sqrt s) in *. assert (0 < r) by lra.
  pose proof PI_RGT_0 as Hpi.
  set (E := exp (- (r * r / (2 * sigma * sigma)))).
  replace (exp (- (s / (2 * sigma * sigma)))) with E by (unfold E; now rewrite Hrr).
  clearbody E. rewrite <- Hrr.
  repeat (f_equal; try (field; repeat split; lra)).
Qed.

(** X23: outside the floor the Hessian is the Jacobian of the deflection.
    For sigma > 0 and a point whose distance from the center exceeds
    1e-5, [f_xx] and [f_xy] are the derivatives in x of the two components
    returned by [derivatives], and [f_xy] and [f_yy] their derivatives
    in y. *)
Theorem Gaussian_hessian_is_jacobian (x y amp sigma center_x center_y : R) :
  0 < sigma ->
  1 / 100000 < sqrt ((x - center_x) ^ 2 + (y - center_y) ^ 2) ->
  exists f_xx f_xy f_yy,
    Gaussian.hessian (Fin x) (Fin y) (Fin amp) (Fin sigma) (Fin center_x) (Fin center_y)
    = (Fin f_xx, Fin f_xy, Fin f_xy, Fin f_yy)
    /\ derivable_pt_lim
         (fun t => real_of (fst (Gaussian.derivatives (Fin t) (Fin y) (Fin amp) (Fin sigma)
                                                      (Fin center_x) (Fin center_y))))
         x f_xx
    /\ derivable_pt_lim
         (fun t => real_of (snd (Gaussian.derivatives (Fin t) (Fin y) (Fin amp) (Fin sigma)
                                                      (Fin center_x) (Fin center_y))))
         x f_xy
    /\ derivable_pt_lim
         (fun t => real_of (fst (Gaussian.derivatives (Fin x) (Fin t) (Fin amp) (Fin sigma)
                                                      (Fin center_x) (Fin center_y))))
         y f_xy
    /\ derivable_pt_lim
         (fun t => real_of (snd (Gaussian.derivatives (Fin x) (Fin t) (Fin amp) (Fin sigma)
                                                      (Fin center_x) (Fin center_y))))
         y f_yy.
Proof.
  intros Hs.
  replace ((x - center_x) ^ 2 + (y - center_y) ^ 2)
    with ((x - center_x) * (x - center_x) + (y - center_y) * (y - center_y)) by ring.
  intros Hr. rewrite Gaussian_hessian_unclamped by assumption. cbv zeta.
  set (s := (x - center_x) * (x - center_x) + (y - center_y) * (y - center_y)) in *.
  assert (Hspos : 0 < s).
  { assert (0 < sqrt s) by lra. destruct (Rle_lt_dec s 0) as [L | G]; [| assumption].
    rewrite sqrt_neg_0 in H by assumption. lra. }
  set (B' := amp / PI
             * (exp (- (s / (2 * sigma * sigma))) / (2 * sigma * sigma) * s
                - (1 - exp (- (s / (2 * sigma * sigma)))))
             / (s * s)).
  set (m := sqrt s - 1 / 100000). assert (Hm : 0 < m) by (unfold m; lra).
  destruct (along_component_derivative amp sigma center_x (y - center_y) x Hs Hspos)
    as [Dxx Dxy].
  assert (Hspos' : 0 < (y - center_y) * (y - center_y) + (x - center_x) * (x - center_x)).
  { unfold s in Hspos. lra. }
  destruct (along_component_derivative amp sigma center_y (x - center_x) y Hs Hspos')
    as [Dyy Dyx].
  cbv zeta in Dxx, Dxy, Dyy, Dyx.
  replace ((y - center_y) * (y - center_y) + (x - center_x) * (x - center_x))
    with s in Dyy, Dyx by (unfold s; ring).
  fold s in Dxx, Dxy. fold B' in Dxx, Dxy, Dyy, Dyx.
  do 3 eexists. split; [reflexivity |].
  split; [| split; [| split]].
  - eapply (derivable_pt_lim_locally_ext _ _ x (x - m) (x + m)); [lra | | exact Dxx].
    intros z Hz.
    rewrite Gaussian_derivatives_unclamped
      by (try assumption; now apply (unclamped_near_x x y center_x center_y z)).
    reflexivity.
  - eapply (derivable_pt_lim_locally_ext _ _ x (x - m) (x + m)); [lra | | exact Dxy].
    intros z Hz.
    rewrite Gaussian_derivatives_unclamped
      by (try assumption; now apply (unclamped_near_x x y center_x center_y z)).
    reflexivity.
  - replace (B' * (2 * (x - center_x)) * (y - center_y))
      with (B' * (2 * (y - center_y)) * (x - center_x)) by ring.
    eapply (derivable_pt_lim_locally_ext _ _ y (y - m) (y + m)); [lra | | exact Dyx].
    intros z Hz.
    rewrite Gaussian_derivatives_unclamped
      by (try assumption; now apply (unclamped_near_y x y center_x center_y z)).
    cbn [fst real_of]. f_equal. f_equal. ring.
  - eapply (derivable_pt_lim_locally_ext _ _ y (y - m) (y + m)); [lra | | exact Dyy].
    intros z Hz.
    rewrite Gaussian_derivatives_unclamped
      by (try assumption; now apply (unclamped_near_y x y center_x center_y z)).
    cbn [snd real_of]. f_equal. f_equal. ring.
Qed.

Lemma Gaussian_hessian_is_jacobian_witness :
  exists f_xx f_xy f_yy,
    Gaussian.hessian (Fin 1) (Fin 0) (Fin 1) (Fin 1) (Fin 0) (Fin 0)
    = (Fin f_xx, Fin f_xy, Fin f_xy, Fin f_yy)
    /\ derivable_pt_lim
         (fun t => real_of (fst (Gaussian.derivatives (Fin t) (Fin 0) (Fin 1) (Fin 1)
                                                      (Fin 0) (Fin 0))))
         1 f_xx
    /\ derivable_pt_lim
         (fun t => real_of (snd (Gaussian.derivatives (Fin t) (Fin 0) (Fin 1) (Fin 1)
                                                      (Fin 0) (Fin 0))))
         1 f_xy
    /\ derivable_pt_lim
         (fun t => real_of (fst (Gaussian.derivatives (Fin 1) (Fin t) (Fin 1) (Fin 1)
                                                      (Fin 0) (Fin 0))))
         0 f_xy
    /\ derivable_pt_lim
         (fun t => real_of (snd (Gaussian.derivatives (Fin 1) (Fin t) (Fin 1) (Fin 1)
                                                      (Fin 0) (Fin 0))))
         0 f_yy.
Proof.
  apply Gaussian_hessian_is_jacobian; [lra |].
  replace ((1 - 0) ^ 2 + (0 - 0) ^ 2) with 1 by ring. rewrite sqrt_1. lra.
Defined.

(** X24: inside the floor the clamp makes the deflection linear: for
    sigma > 0 there is one factor k such that at every point within 1e-5
    of the center the deflection is k times the offsets. *)
Theorem Gaussian_derivatives_linear_inside_floor (amp sigma center_x center_y : R) :
  0 < sigma ->
  exists k,
    forall x y,
      sqrt ((x - center_x) ^ 2 + (y - center_y) ^ 2) <= 1 / 100000 ->
      Gaussian.derivatives (Fin x) (Fin y) (Fin amp) (Fin sigma) (Fin center_x) (Fin center_y)
      = (Fin (k * (x - center_x)), Fin (k * (y - center_y))).
Proof.
  intros Hs.
  exists (amp * (1 - exp (- (1 / 100000 * (1 / 100000) / (2 * sigma * sigma)))) / PI
          / (1 / 100000) / (1 / 100000)).
  intros x y.
  replace ((x - center_x) ^ 2 + (y - center_y) ^ 2)
    with ((x - center_x) * (x - center_x) + (y - center_y) * (y - center_y)) by ring.
  intros Hr. rewrite Gaussian_derivatives_Fin by assumption. cbv zeta.
  rewrite Rmax_right by assumption. reflexivity.
Qed.

Lemma Gaussian_derivatives_linear_inside_floor_witness :
  exists k,
    forall x y,
      sqrt ((x - 0) ^ 2 + (y - 0) ^ 2) <= 1 / 100000 ->
      Gaussian.derivatives (Fin x) (Fin y) (Fin 1) (Fin 1) (Fin 0) (Fin 0)
      = (Fin (k * (x - 0)), Fin (k * (y - 0))).
Proof. apply Gaussian_derivatives_linear_inside_floor. lra. Defined.

(** X25: the amplitude conversions are inverse in the other order too:
    for sigma_x, sigma_y > 0, converting a 3d amplitude to 2d and back
    gives the amplitude again. *)
Theorem amplitude_round_trip_3d (a sx sy : R) :
  0 < sx -> 0 < sy ->
  Gaussian._amp2d_to_3d (Gaussian._amp3d_to_2d (Fin a) (Fin sx) (Fin sy)) (Fin sx) (Fin sy)
  = Fin a.
Proof.
  intros Hx Hy. rewrite amp3d_to_2d_Fin by assumption.
  rewrite amp2d_to_3d_Fin by assumption. f_equal. field.
  split; apply Rgt_not_eq; apply sqrt_lt_R0; positive.
Qed.

Lemma amplitude_round_trip_3d_witness :
  Gaussian._amp2d_to_3d (Gaussian._amp3d_to_2d (Fin 1) (Fin 1) (Fin 1)) (Fin 1) (Fin 1)
  = Fin 1.
Proof. apply amplitude_round_trip_3d; lra. Defined.

(** ** gaussian.py on binary64: the lens center *)

Section Binary64Facts.

Import Floats.
Import GaussianBinary64.
Local Open Scope float_scope.

Lemma SFcompare_finite_refl (s : bool) (m : positive) (e : Z) :
  SFcompare (S754_finite s m e) (S754_finite s m e) = Some Eq.
Proof.
  unfold SFcompare. rewrite Z.compare_refl, Pos.compare_refl. destruct s; reflexivity.
Qed.

Lemma is_nan_spec (x : float) :
  is_nan x = match Prim2SF x with S754_nan => true | _ => false end.
Proof.
  unfold is_nan. rewrite eqb_spec. unfold SFeqb.
  destruct (Prim2SF x) as [s | s | | s m e].
  - reflexivity.
  - destruct s; reflexivity.
  - reflexivity.
  - now rewrite SFcompare_finite_refl.
Qed.

Lemma is_finite_spec (x : float) :
  is_finite x
  = match Prim2SF x with S754_zero _ | S754_finite _ _ _ => true | _ => false end.
Proof.
  unfold is_finite, is_infinity. rewrite is_nan_spec, eqb_spec, abs_spec.
  change (Prim2SF infinity) with (S754_infinity false).
  destruct (Prim2SF x) as [s | s | | s m e]; reflexivity.
Qed.

Lemma nanP_is_nan (x : float) : nanP x -> is_nan x = true.
Proof. unfold nanP. intros H. now rewrite is_nan_spec, H. Qed.

Lemma zeroP_is_finite (x : float) : zeroP x -> is_finite x = true.
Proof. intros [s H]. now rewrite is_finite_spec, H. Qed.

Lemma zeroP_eqb_zero (z : float) : zeroP z -> (z =? 0) = true.
Proof. intros [s H]. rewrite eqb_spec, H. reflexivity. Qed.

(** NaN propagates through every basic operation. *)
Lemma nanP_nan : nanP nan.
Proof. reflexivity. Qed.

Lemma nanP_mul_l (x y : float) : nanP x -> nanP (x * y).
Proof. unfold nanP. intros H. rewrite mul_spec, H. reflexivity. Qed.

Lemma nanP_mul_r (x y : float) : nanP y -> nanP (x * y).
Proof. unfold nanP. intros H. rewrite mul_spec, H. destruct (Prim2SF x); reflexivity. Qed.

Lemma nanP_div_l (x y : float) : nanP x -> nanP (x / y).
Proof. unfold nanP. intros H. rewrite div_spec, H. reflexivity. Qed.

Lemma nanP_div_r (x y : float) : nanP y -> nanP (x / y).
Proof. unfold nanP. intros H. rewrite div_spec, H. destruct (Prim2SF x); reflexivity. Qed.

Lemma nanP_add_l (x y : float) : nanP x -> nanP (x + y).
Proof. unfold nanP. intros H. rewrite add_spec, H. reflexivity. Qed.

Lemma nanP_add_r (x y : float) : nanP y -> nanP (x + y).
Proof. unfold nanP. intros H. rewrite add_spec, H. destruct (Prim2SF x); reflexivity. Qed.

Lemma nanP_opp (x : float) : nanP x -> nanP (- x).
Proof. unfold nanP. intros H. rewrite opp_spec, H. reflexivity. Qed.

(** Evaluate the closed part of a float expression, then follow the NaN
    through the operations that are left. *)
Ltac nan_propagates :=
  match goal with
  | |- nanP ?x => let t := eval vm_compute in x in change (nanP t)
  end;
  eauto 30 using nanP_nan, nanP_mul_l, nanP_mul_r, nanP_div_l, nanP_div_r,
                 nanP_add_l, nanP_add_r, nanP_opp.

(** sigma = 2^600: [sigma * sigma] overflows, [c] is 0 and [mass_2d]
    contains 0 / 0. *)
Lemma derivatives_huge_sigma (exp : float -> float) :
  nanP (fst (derivatives exp 0 0 1 two_pow_600 0 0))
  /\ nanP (snd (derivatives exp 0 0 1 two_pow_600 0 0)).
Proof. split; nan_propagates. Qed.

(** sigma = 2^-600: [sigma * sigma] underflows to 0, [c] and the
    amplitude density are infinite and [mass_2d] contains inf / inf. *)
Lemma derivatives_tiny_sigma (exp : float -> float) :
  nanP (fst (derivatives exp 0 0 1 two_pow_minus_600 0 0))
  /\ nanP (snd (derivatives exp 0 0 1 two_pow_minus_600 0 0)).
Proof. split; nan_propagates. Qed.

Lemma hessian_huge_sigma (exp : float -> float) :
  match hessian exp 0 0 1 two_pow_600 0 0 with
  | (f_xx, f_xy, f_yx, f_yy) => nanP f_xx /\ nanP f_xy /\ nanP f_yx /\ nanP f_yy
  end.
Proof.
  unfold hessian. cbv zeta. repeat split; nan_propagates.
Qed.

(** Subtracting a finite float from itself gives +0. *)
Lemma sub_diag_finite (x : float) : is_finite x = true -> x - x = 0.
Proof.
  rewrite is_finite_spec. intros H. apply Prim2SF_inj. rewrite sub_spec.
  change (Prim2SF 0) with (S754_zero false).
  destruct (Prim2SF x) as [s | s | | s m e]; try discriminate.
  - destruct s; reflexivity.
  - unfold SF64sub, SFsub. cbv zeta. rewrite Z.sub_diag. reflexivity.
Qed.

Lemma finite_mul_zero (q : float) : is_finite q = true -> zeroP (q * 0).
Proof.
  rewrite is_finite_spec. intros H. unfold zeroP. rewrite mul_spec.
  change (Prim2SF 0) with (S754_zero false).
  destruct (Prim2SF q) as [s | s | | s m e]; try discriminate; eexists; reflexivity.
Qed.

Lemma nonfinite_mul_zero (q : float) : is_finite q = false -> nanP (q * 0).
Proof.
  rewrite is_finite_spec. intros H. unfold nanP. rewrite mul_spec.
  change (Prim2SF 0) with (S754_zero false).
  destruct (Prim2SF q) as [s | s | | s m e]; try discriminate; reflexivity.
Qed.

Lemma zeroP_mul_zero (z : float) : zeroP z -> zeroP (z * 0).
Proof. intros H. apply finite_mul_zero. now apply zeroP_is_finite. Qed.

Lemma zeroP_div_ds (z : float) : zeroP z -> zeroP (z / ds).
Proof.
  intros [s H]. unfold zeroP. rewrite div_spec, H.
  change (Prim2SF ds) with (S754_finite false 5902958103587057 (-69)).
  eexists. reflexivity.
Qed.

Lemma zeroP_add_finite (z w : float) :
  zeroP z -> is_finite w = true -> is_finite (z + w) = true.
Proof.
  intros [s H]. rewrite !is_finite_spec, add_spec, H.
  destruct (Prim2SF w) as [s' | s' | | s' m e]; try discriminate; intros _.
  - destruct s, s'; reflexivity.
  - reflexivity.
Qed.

(** At a finite center the offsets are +0, the radius 0 is replaced by
    the floor, and the deflection is the radial factor times 0. *)
Lemma derivatives_center_binary64 (exp : float -> float) (amp sigma cx cy : float) :
  is_finite cx = true -> is_finite cy = true ->
  derivatives exp cx cy amp sigma cx cy
  = (alpha_abs exp ds amp sigma / ds * 0, alpha_abs exp ds amp sigma / ds * 0).
Proof.
  intros Hx Hy. unfold derivatives. cbv zeta.
  rewrite !sub_diag_finite by assumption. reflexivity.
Qed.

Lemma hessian_origin_binary64 (exp : float -> float) (amp sigma : float) :
  hessian exp 0 0 amp sigma 0 0
  = (hessian_radial_factor exp ds amp sigma * 0 / ds + alpha_abs exp ds amp sigma / ds,
     hessian_radial_factor exp ds amp sigma * 0 * 0 / ds,
     hessian_radial_factor exp ds amp sigma * 0 * 0 / ds,
     hessian_radial_factor exp ds amp sigma * 0 / ds + alpha_abs exp ds amp sigma / ds).
Proof. reflexivity. Qed.

(** C9, as amended: on binary64, whatever [jnp.exp] computes, at a
    finite lens center (x = center_x, y = center_y) [derivatives] returns
    the pair (q * 0, q * 0) with q = alpha_abs(ds, amp, sigma) / ds, the
    radius having been clamped to the floor ds; each component is a zero
    (== 0) when q is finite, and NaN when q is not. *)
Theorem derivatives_at_center_zero_when_finite
    (exp : float -> float) (amp sigma center_x center_y : float) :
  is_finite center_x = true -> is_finite center_y = true ->
  let q := alpha_abs exp ds amp sigma / ds in
  derivatives exp center_x center_y amp sigma center_x center_y = (q * 0, q * 0)
  /\ (is_finite q = true -> (q * 0 =? 0) = true)
  /\ (is_finite q = false -> is_nan (q * 0) = true).
Proof.
  intros Hx Hy q. split; [| split].
  - now apply derivatives_center_binary64.
  - intros H. now apply zeroP_eqb_zero, finite_mul_zero.
  - intros H. now apply nanP_is_nan, nonfinite_mul_zero.
Qed.

Lemma derivatives_at_center_zero_when_finite_witness :
  let q := alpha_abs exp_near_zero ds 1 1 / ds in
  derivatives exp_near_zero 3 4 1 1 3 4 = (q * 0, q * 0)
  /\ (is_finite q = true -> (q * 0 =? 0) = true)
  /\ (is_finite q = false -> is_nan (q * 0) = true).
Proof.
  apply (derivatives_at_center_zero_when_finite exp_near_zero 1 1 3 4); reflexivity.
Defined.

(** C9, the claim as stated (exactly (0, 0) for every sigma > 0) fails
    on the floats the code computes with: at the center, with amp = 1 and
    sigma = 2^600, both components are NaN, whatever [jnp.exp] computes
    ([sigma * sigma] overflows, [c] is 0 and [mass_2d] is 0 / 0). *)
Lemma derivatives_at_center_nan_for_huge_sigma :
  ~ (exists exp : float -> float,
       all_nan [fst (derivatives exp 0 0 1 two_pow_600 0 0);
                snd (derivatives exp 0 0 1 two_pow_600 0 0)] = false).
Proof.
  intros [exp H]. destruct (derivatives_huge_sigma exp) as [H1 H2].
  unfold all_nan in H. cbn [forallb] in H.
  rewrite (nanP_is_nan _ H1), (nanP_is_nan _ H2) in H. discriminate.
Qed.

(** C4, as amended: on binary64, whatever [jnp.exp] computes, for the
    Gaussian model at x = y = 0 with the center at the origin: if the two
    radial factors at the floor, alpha_abs(ds) / ds and
    -(-d_alpha_dr(ds) / ds + alpha_abs(ds) / ds^2), are finite, then the
    two values of [derivatives] and the four of [hessian] are finite
    (no NaN, no infinity): the radius they divide by is the floor ds, not
    the radius 0. *)
Theorem Gaussian_origin_finite_when_radial_factors_finite
    (exp : float -> float) (amp sigma : float) :
  is_finite (alpha_abs exp ds amp sigma / ds) = true ->
  is_finite (hessian_radial_factor exp ds amp sigma) = true ->
  match derivatives exp 0 0 amp sigma 0 0, hessian exp 0 0 amp sigma 0 0 with
  | (f_x, f_y), (f_xx, f_xy, f_yx, f_yy) =>
      all_finite [f_x; f_y; f_xx; f_xy; f_yx; f_yy] = true
  end.
Proof.
  intros Hq Ht.
  rewrite (derivatives_center_binary64 exp amp sigma 0 0) by reflexivity.
  rewrite hessian_origin_binary64.
  pose proof (finite_mul_zero _ Hq) as Zq.
  pose proof (finite_mul_zero _ Ht) as Zt.
  unfold all_finite. cbn [forallb].
  rewrite (zeroP_is_finite _ Zq).
  rewrite (zeroP_add_finite _ _ (zeroP_div_ds _ Zt) Hq).
  rewrite (zeroP_is_finite _ (zeroP_div_ds _ (zeroP_mul_zero _ Zt))).
  reflexivity.
Qed.

Lemma Gaussian_origin_finite_when_radial_factors_finite_witness :
  match derivatives exp_near_zero 0 0 1 1 0 0, hessian exp_near_zero 0 0 1 1 0 0 with
  | (f_x, f_y), (f_xx, f_xy, f_yx, f_yy) =>
      all_finite [f_x; f_y; f_xx; f_xy; f_yx; f_yy] = true
  end.
Proof.
  apply (Gaussian_origin_finite_when_radial_factors_finite exp_near_zero 1 1); reflexivity.
Defined.

(** C4, the claim as stated (no NaN at x = y = 0) fails for the Gaussian
    model at valid parameters, whatever [jnp.exp] computes: with amp = 1
    and sigma = 2^-600 both values of [derivatives] are NaN
    ([sigma * sigma] underflows), and with sigma = 2^600 the four values
    of [hessian] are NaN ([sigma * sigma] overflows). *)
Lemma origin_nan_for_extreme_sigma :
  ~ (exists exp : float -> float,
       all_nan [fst (derivatives exp 0 0 1 two_pow_minus_600 0 0);
                snd (derivatives exp 0 0 1 two_pow_minus_600 0 0)] = false)
  /\ ~ (exists exp : float -> float,
          match hessian exp 0 0 1 two_pow_600 0 0 with
          | (f_xx, f_xy, f_yx, f_yy) => all_nan [f_xx; f_xy; f_yx; f_yy] = false
          end).
Proof.
  split.
  - intros [exp H]. destruct (derivatives_tiny_sigma exp) as [H1 H2].
    unfold all_nan in H. cbn [forallb] in H.
    rewrite (nanP_is_nan _ H1), (nanP_is_nan _ H2) in H. discriminate.
  - intros [exp H]. pose proof (hessian_huge_sigma exp) as N.
    destruct (hessian exp 0 0 1 two_pow_600 0 0) as [[[f_xx f_xy] f_yx] f_yy].
    destruct N as (N1 & N2 & N3 & N4).
    unfold all_nan in H. cbn [forallb] in H.
    rewrite (nanP_is_nan _ N1), (nanP_is_nan _ N2), (nanP_is_nan _ N3),
      (nanP_is_nan _ N4) in H.
    discriminate.
Qed.

End Binary64Facts.
